(** * WAV encoding and audio trimming of the multi-tool hub

    A shallow embedding of [audioBufferToWav] and of the [handleTrim] handler
    of the [AudioTrimmer] component (src/components/tools/index.tsx), with the
    parts of the JavaScript number semantics, of [DataView], of typed arrays
    and of the Web Audio [AudioBuffer] that the two functions rely on. *)

From Stdlib Require Import ZArith QArith Qround Qabs Qpower Qreduction.
From Stdlib Require Import Lqa Lia List Bool String.
Import ListNotations.

Local Open Scope Z_scope.

(** ** JavaScript numbers

    A JavaScript number is an IEEE 754 binary64 value.  Finite values are
    modelled by the rational they denote; the sign of zero is not modelled
    (no operation of the two functions observes it). *)

Inductive number : Type :=
| NaN
| Inf (negative : bool)
| Fin (q : Q).

Definition pow2 (k : Z) : Q := (2 ^ k)%Q.

(** Nearest integer, ties to the even one. *)
Definition rne (x : Q) : Z :=
  let f := Qfloor x in
  match (x - inject_Z f ?= 1 # 2)%Q with
  | Lt => f
  | Gt => f + 1
  | Eq => if Z.even f then f else f + 1
  end.

(** [ilog2 x] is the binary exponent of a positive rational:
    [2 ^ ilog2 x <= x < 2 ^ (ilog2 x + 1)]. *)
Definition ilog2 (x : Q) : Z :=
  let l := Z.log2 (Qnum x) - Z.log2 (Zpos (Qden x)) in
  if Qle_bool (pow2 l) x then l else l - 1.

(** Exponent of the unit in the last place of binary64 at [x]: 53 significant
    bits, and the fixed spacing [2 ^ -1074] in the subnormal range. *)
Definition ulp_exp (x : Q) : Z := Z.max (ilog2 x - 52) (-1074).

(** The multiple of [2 ^ u] nearest to [x], ties to the even multiple. *)
Definition to_grid (u : Z) (x : Q) : Q :=
  (inject_Z (rne (x / pow2 u)) * pow2 u)%Q.

(** Round to nearest, ties to even, of a non-negative rational. *)
Definition round_pos (x : Q) : Q := to_grid (ulp_exp x) x.

Definition roundQ (x : Q) : Q :=
  if Qle_bool 0 x then round_pos x else (- round_pos (- x))%Q.

(** The binary64 value of an exact result, with overflow to infinity. *)
Definition round64 (x : Q) : number :=
  let y := roundQ x in
  if Qle_bool (pow2 1024) y then Inf false
  else if Qle_bool y (- pow2 1024) then Inf true
  else Fin (Qred y).

Definition Qltb (x y : Q) : bool := negb (Qle_bool y x).

Definition num_neg (a : number) : number :=
  match a with
  | NaN => NaN
  | Inf s => Inf (negb s)
  | Fin x => Fin (- x)
  end.

Definition num_add (a b : number) : number :=
  match a, b with
  | NaN, _ | _, NaN => NaN
  | Inf s, Inf t => if Bool.eqb s t then Inf s else NaN
  | Inf s, Fin _ | Fin _, Inf s => Inf s
  | Fin x, Fin y => round64 (x + y)
  end.

Definition num_sub (a b : number) : number := num_add a (num_neg b).

Definition num_mul (a b : number) : number :=
  match a, b with
  | NaN, _ | _, NaN => NaN
  | Inf s, Inf t => Inf (xorb s t)
  | Inf s, Fin x | Fin x, Inf s =>
      if Qeq_bool x 0 then NaN else Inf (xorb s (Qltb x 0))
  | Fin x, Fin y => round64 (x * y)
  end.

Definition num_div (a b : number) : number :=
  match a, b with
  | NaN, _ | _, NaN => NaN
  | Inf _, Inf _ => NaN
  | Inf s, Fin y => Inf (xorb s (Qltb y 0))
  | Fin _, Inf _ => Fin 0
  | Fin x, Fin y =>
      if Qeq_bool y 0
      then (if Qeq_bool x 0 then NaN else Inf (Qltb x 0))
      else round64 (x / y)
  end.

(** [a < b] and [a <= b]; every comparison with [NaN] is false. *)
Definition num_ltb (a b : number) : bool :=
  match a, b with
  | NaN, _ | _, NaN => false
  | Inf s, Inf t => s && negb t
  | Inf s, Fin _ => s
  | Fin _, Inf t => negb t
  | Fin x, Fin y => Qltb x y
  end.

Definition num_leb (a b : number) : bool :=
  match a, b with
  | NaN, _ | _, NaN => false
  | Inf s, Inf t => s || negb t
  | Inf s, Fin _ => s
  | Fin _, Inf t => negb t
  | Fin x, Fin y => Qle_bool x y
  end.

(** [Math.max] and [Math.min] of two arguments. *)
Definition Math_max (a b : number) : number :=
  match a, b with
  | NaN, _ | _, NaN => NaN
  | _, _ => if num_ltb a b then b else a
  end.

Definition Math_min (a b : number) : number :=
  match a, b with
  | NaN, _ | _, NaN => NaN
  | _, _ => if num_ltb b a then b else a
  end.

Definition Math_floor (a : number) : number :=
  match a with
  | Fin x => Fin (inject_Z (Qfloor x))
  | _ => a
  end.

(** Truncation toward zero. *)
Definition Qtrunc (x : Q) : Z :=
  if Qle_bool 0 x then Qfloor x else Qceiling x.

(** [x | 0]: the ToInt32 conversion. *)
Definition ToInt32 (a : number) : Z :=
  match a with
  | Fin x => (Qtrunc x + 2 ^ 31) mod 2 ^ 32 - 2 ^ 31
  | _ => 0
  end.

(** Conversion of a number to a Web IDL [unsigned long] argument. *)
Definition ToUint32 (a : number) : Z :=
  match a with
  | Fin x => Qtrunc x mod 2 ^ 32
  | _ => 0
  end.

Definition of_Z (n : Z) : number := Fin (inject_Z n).

(** ** Exceptions and bounded loops *)

Inductive exn : Type := RangeError | NotSupportedError | IndexSizeError | TypeError.

Inductive result (A : Type) : Type :=
| Ok (a : A)
| Throw (e : exn).

Arguments Ok {A} a.
Arguments Throw {A} e.

(** [for (i = lo; i < lo + n; i++) body], for a body that does not assign
    [i] or the bound. *)
Fixpoint for_loop {S : Type} (n : nat) (i : Z) (body : Z -> S -> result S)
  (s : S) : result S :=
  match n with
  | O => Ok s
  | Datatypes.S n' =>
      match body i s with
      | Ok s' => for_loop n' (i + 1) body s'
      | Throw e => Throw e
      end
  end.

(** ** ArrayBuffer and DataView

    A byte is an integer in [0, 256).  A fresh [ArrayBuffer] is filled with
    zeros; the [DataView] setters throw a [RangeError] when the write does
    not fit. *)

Abbreviation byte := Z (only parsing).

Definition new_ArrayBuffer (len : Z) : list byte := repeat 0 (Z.to_nat len).

Fixpoint le_bytes (n : nat) (v : Z) : list byte :=
  match n with
  | O => []
  | S n' => v mod 256 :: le_bytes n' (v / 256)
  end.

Definition write_at (buf : list byte) (pos : Z) (bs : list byte)
  : result (list byte) :=
  let n := Z.of_nat (List.length bs) in
  if (0 <=? pos) && (pos + n <=? Z.of_nat (List.length buf))
  then Ok (firstn (Z.to_nat pos) buf ++ bs ++ skipn (Z.to_nat (pos + n)) buf)
  else Throw RangeError.

(** [view.setUint16(pos, data, true)] and the like: the value is reduced
    modulo the width and stored least significant byte first. *)
Definition DataView_setUint16 (buf : list byte) (pos data : Z) :=
  write_at buf pos (le_bytes 2 (data mod 2 ^ 16)).

Definition DataView_setUint32 (buf : list byte) (pos data : Z) :=
  write_at buf pos (le_bytes 4 (data mod 2 ^ 32)).

Definition DataView_setInt16 (buf : list byte) (pos data : Z) :=
  write_at buf pos (le_bytes 2 (data mod 2 ^ 16)).

(** Readers, used to state what a WAVE reader sees. *)
Fixpoint le_value (bs : list byte) : Z :=
  match bs with
  | [] => 0
  | b :: bs' => b + 256 * le_value bs'
  end.

Definition slice {A : Type} (lo hi : Z) (l : list A) : list A :=
  firstn (Z.to_nat (hi - lo)) (skipn (Z.to_nat lo) l).

Definition getUint (bs : list byte) (lo hi : Z) : Z := le_value (slice lo hi bs).

Definition getInt16 (bs : list byte) (pos : Z) : Z :=
  let u := getUint bs pos (pos + 2) in
  if u <? 2 ^ 15 then u else u - 2 ^ 16.

Definition ascii_bytes (s : string) : list byte :=
  map (fun c => Z.of_nat (Ascii.nat_of_ascii c)) (list_ascii_of_string s).

(** ** AudioBuffer (Web Audio) *)

Module AudioBuffer.

Record t : Type := mk {
  numberOfChannels : Z;
  length : Z;
  sampleRate : Z;
  channelData : list (list number)
}.

(** [duration] is the quotient of [length] by [sampleRate], a double. *)
Definition duration (b : t) : number :=
  num_div (of_Z (length b)) (of_Z (sampleRate b)).

Definition getChannelData (b : t) (i : Z) : result (list number) :=
  if (0 <=? i) && (i <? numberOfChannels b)
  then match nth_error (channelData b) (Z.to_nat i) with
       | Some c => Ok c
       | None => Throw IndexSizeError
       end
  else Throw IndexSizeError.

(** The invariants of a sample buffer: positive rate and channel count, a
    non-negative frame count, and every channel of that many samples. *)
Definition valid (b : t) : Prop :=
  0 < sampleRate b /\
  0 < numberOfChannels b /\
  0 <= length b /\
  Z.of_nat (List.length (channelData b)) = numberOfChannels b /\
  Forall (fun c => Z.of_nat (List.length c) = length b) (channelData b).

(** [BaseAudioContext.createBuffer]: the frame count is an [unsigned long]
    argument; a zero value of any argument is a [NotSupportedError].  The
    new buffer is silent.  Implementation limits (largest channel count,
    supported rates, memory) are not modelled. *)
Definition createBuffer (numChannels : Z) (len : number) (rate : Z) : result t :=
  let n := ToUint32 len in
  if (numChannels <=? 0) || (n =? 0) || (rate <=? 0)
  then Throw NotSupportedError
  else Ok (mk numChannels n rate
             (repeat (repeat (of_Z 0) (Z.to_nat n)) (Z.to_nat numChannels))).

End AudioBuffer.

(** ** Typed arrays *)

(** Index arguments of [subarray]: converted to an integer, counted from the
    end when negative, and clamped into [0, len]. *)
Definition relative_index (len : Z) (i : number) : Z :=
  match i with
  | NaN => 0
  | Inf true => 0
  | Inf false => len
  | Fin x =>
      let r := Qtrunc x in
      if r <? 0 then Z.max (len + r) 0 else Z.min r len
  end.

Definition subarray (a : list number) (begin_ end_ : number) : list number :=
  let len := Z.of_nat (List.length a) in
  slice (relative_index len begin_)
        (Z.max (relative_index len begin_) (relative_index len end_)) a.

(** [target.set(source)]: copies [source] over the start of [target]. *)
Definition TypedArray_set (target source : list number) : result (list number) :=
  if (List.length source <=? List.length target)%nat
  then Ok (source ++ skipn (List.length source) target)
  else Throw RangeError.

Fixpoint list_update {A : Type} (l : list A) (i : nat) (x : A) : list A :=
  match l, i with
  | [], _ => []
  | _ :: t, O => x :: t
  | h :: t, S i' => h :: list_update t i' x
  end.

(** ** The encoder: [audioBufferToWav] *)

(** The cursor [pos] and the [DataView] over the output that the closures
    [setUint16] and [setUint32] share with the body of the function.
    [in_bounds] is a ghost flag: it records that no channel was read past its
    end (such a read yields [undefined] in JavaScript, not an exception). *)
Record wav_state : Type := mk_wav {
  view : list byte;
  pos : Z;
  in_bounds : bool
}.

Definition Wav (A : Type) : Type := wav_state -> result (A * wav_state).

Definition wret {A : Type} (a : A) : Wav A := fun st => Ok (a, st).

Definition wbind {A B : Type} (m : Wav A) (k : A -> Wav B) : Wav B :=
  fun st =>
    match m st with
    | Ok (a, st') => k a st'
    | Throw e => Throw e
    end.

Notation "m ;; k" := (wbind m (fun _ => k))
  (at level 61, right associativity).

Definition get_pos : Wav Z := fun st => Ok (pos st, st).

Definition store (w : list byte -> Z -> result (list byte)) (width : Z)
  : Wav unit :=
  fun st =>
    match w (view st) (pos st) with
    | Ok v => Ok (tt, mk_wav v (pos st + width) (in_bounds st))
    | Throw e => Throw e
    end.

Definition setUint16 (data : Z) : Wav unit :=
  store (fun v p => DataView_setUint16 v p data) 2.

Definition setUint32 (data : Z) : Wav unit :=
  store (fun v p => DataView_setUint32 v p data) 4.

Definition write_header (numOfChan len sampleRate : Z) : Wav unit :=
  setUint32 0x46464952 ;;
  setUint32 (len - 8) ;;
  setUint32 0x45564157 ;;
  setUint32 0x20746d66 ;;
  setUint32 16 ;;
  setUint16 1 ;;
  setUint16 numOfChan ;;
  setUint32 sampleRate ;;
  setUint32 (sampleRate * 2 * numOfChan) ;;
  setUint16 (numOfChan * 2) ;;
  setUint16 16 ;;
  setUint32 0x61746164 ;;
  wbind get_pos (fun p => setUint32 (len - p - 4)).

(** The 44 bytes that [write_header] stores. *)
Definition header_bytes (numOfChan len sampleRate : Z) : list byte :=
  le_bytes 4 (0x46464952 mod 2 ^ 32) ++
  le_bytes 4 ((len - 8) mod 2 ^ 32) ++
  le_bytes 4 (0x45564157 mod 2 ^ 32) ++
  le_bytes 4 (0x20746d66 mod 2 ^ 32) ++
  le_bytes 4 (16 mod 2 ^ 32) ++
  le_bytes 2 (1 mod 2 ^ 16) ++
  le_bytes 2 (numOfChan mod 2 ^ 16) ++
  le_bytes 4 (sampleRate mod 2 ^ 32) ++
  le_bytes 4 ((sampleRate * 2 * numOfChan) mod 2 ^ 32) ++
  le_bytes 2 ((numOfChan * 2) mod 2 ^ 16) ++
  le_bytes 2 (16 mod 2 ^ 16) ++
  le_bytes 4 (0x61746164 mod 2 ^ 32) ++
  le_bytes 4 ((len - 40 - 4) mod 2 ^ 32).

(** Lines 104 and 105: clamp, scale, and convert to a 32-bit integer. *)
Definition clamp_sample (x : number) : number :=
  Math_max (of_Z (-1)) (Math_min (of_Z 1) x).

Definition scale_sample (sample : number) : number :=
  if num_ltb (num_add (Fin (1 # 2)) sample) (of_Z 0)
  then num_mul sample (of_Z 32768)
  else num_mul sample (of_Z 32767).

Definition quantize (x : number) : Z := ToInt32 (scale_sample (clamp_sample x)).

(** [channels[i][offset]]: a [TypeError] when [channels[i]] is undefined,
    [undefined] (which [Math.min] turns into [NaN]) past the end of the
    channel. *)
Definition read_channel (channels : list (list number)) (i offset : Z)
  : result (option number) :=
  match nth_error channels (Z.to_nat i) with
  | None => Throw TypeError
  | Some c =>
      if (0 <=? offset) && (offset <? Z.of_nat (List.length c))
      then Ok (nth_error c (Z.to_nat offset))
      else Ok None
  end.

Definition write_sample (channels : list (list number)) (offset i : Z)
  (st : wav_state) : result wav_state :=
  match read_channel channels i offset with
  | Throw e => Throw e
  | Ok r =>
      let x := match r with Some x => x | None => NaN end in
      let ok := match r with Some _ => in_bounds st | None => false end in
      match DataView_setInt16 (view st) (pos st) (quantize x) with
      | Ok v => Ok (mk_wav v (pos st + 2) ok)
      | Throw e => Throw e
      end
  end.

(** The [while (pos < len)] loop; [None] when the fuel runs out. *)
Fixpoint write_frames (fuel : nat) (channels : list (list number))
  (numOfChan len offset : Z) (st : wav_state) : option (result wav_state) :=
  if pos st <? len then
    match fuel with
    | O => None
    | S fuel' =>
        match for_loop (Z.to_nat numOfChan) 0 (write_sample channels offset) st with
        | Ok st' => write_frames fuel' channels numOfChan len (offset + 1) st'
        | Throw e => Some (Throw e)
        end
    end
  else Some (Ok st).

(** The data section: one little-endian 16-bit word per sample, all the
    channels of frame 0, then all the channels of frame 1, and so on. *)
Definition int16_bytes (x : number) : list byte := le_bytes 2 (quantize x mod 2 ^ 16).

Definition frame (channels : list (list number)) (offset : nat) : list number :=
  map (fun c => nth offset c NaN) channels.

Definition interleave (channels : list (list number)) (frames : nat) : list number :=
  flat_map (frame channels) (seq 0 frames).

Definition data_bytes (channels : list (list number)) (frames : nat) : list byte :=
  flat_map int16_bytes (interleave channels frames).

Definition wav_length (b : AudioBuffer.t) : Z :=
  AudioBuffer.length b * AudioBuffer.numberOfChannels b * 2 + 44.

Definition wav_bytes (b : AudioBuffer.t) : list byte :=
  header_bytes (AudioBuffer.numberOfChannels b) (wav_length b) (AudioBuffer.sampleRate b)
  ++ data_bytes (AudioBuffer.channelData b) (Z.to_nat (AudioBuffer.length b)).

Definition collect_channels (b : AudioBuffer.t) : result (list (list number)) :=
  for_loop (Z.to_nat (AudioBuffer.numberOfChannels b)) 0
    (fun i channels =>
       match AudioBuffer.getChannelData b i with
       | Ok c => Ok (channels ++ [c])
       | Throw e => Throw e
       end) [].

Definition encode (fuel : nat) (b : AudioBuffer.t) : option (result wav_state) :=
  let numOfChan := AudioBuffer.numberOfChannels b in
  let len := AudioBuffer.length b * numOfChan * 2 + 44 in
  let st0 := mk_wav (new_ArrayBuffer len) 0 true in
  match write_header numOfChan len (AudioBuffer.sampleRate b) st0 with
  | Throw e => Some (Throw e)
  | Ok (_, st1) =>
      match collect_channels b with
      | Throw e => Some (Throw e)
      | Ok channels => write_frames fuel channels numOfChan len 0 st1
      end
  end.

(** One round of the loop per frame: [length + 1] units of fuel. *)
Definition audioBufferToWav (b : AudioBuffer.t) : option (result (list byte)) :=
  match encode (S (Z.to_nat (AudioBuffer.length b))) b with
  | Some (Ok st) => Some (Ok (view st))
  | Some (Throw e) => Some (Throw e)
  | None => None
  end.

(** ** The trimmer: [handleTrim] of [AudioTrimmer] *)

Definition effectiveStart (startTime : number) : number :=
  Math_max (of_Z 0) startTime.

Definition effectiveEnd (b : AudioBuffer.t) (endTime : number) : number :=
  Math_min endTime (AudioBuffer.duration b).

Definition startSample (b : AudioBuffer.t) (startTime : number) : number :=
  Math_floor (num_mul (effectiveStart startTime) (of_Z (AudioBuffer.sampleRate b))).

Definition endSample (b : AudioBuffer.t) (endTime : number) : number :=
  Math_floor (num_mul (effectiveEnd b endTime) (of_Z (AudioBuffer.sampleRate b))).

(** The index that [Math.floor(x * sampleRate)] yields for a finite,
    in-range time [x]: the floor of the rounded product. *)
Definition index_of (b : AudioBuffer.t) (x : Q) : Z :=
  Qfloor (roundQ (x * inject_Z (AudioBuffer.sampleRate b))).

(** The channel data of an [AudioBuffer] is shared with the arrays that
    [getChannelData] returns: [set] on such an array changes the buffer. *)
Definition set_channel (b : AudioBuffer.t) (i : Z) (c : list number) : AudioBuffer.t :=
  AudioBuffer.mk (AudioBuffer.numberOfChannels b) (AudioBuffer.length b)
    (AudioBuffer.sampleRate b)
    (list_update (AudioBuffer.channelData b) (Z.to_nat i) c).

(** Body of the loop of lines 938 to 942. *)
Definition copy_channel (audioBuffer : AudioBuffer.t) (first last : number)
  (i : Z) (newBuffer : AudioBuffer.t) : result AudioBuffer.t :=
  match AudioBuffer.getChannelData audioBuffer i with
  | Throw e => Throw e
  | Ok channelData =>
      match AudioBuffer.getChannelData newBuffer i with
      | Throw e => Throw e
      | Ok newChannelData =>
          match TypedArray_set newChannelData (subarray channelData first last) with
          | Throw e => Throw e
          | Ok c => Ok (set_channel newBuffer i c)
          end
      end
  end.

Inductive trim_outcome : Type :=
| InvalidRange
| Trimmed (newBuffer : AudioBuffer.t)
| TrimThrew (e : exn).

(** Lines 920 to 942 of [handleTrim]: from the range check to the filled
    [newBuffer].  This is the operation the specification calls [extract];
    [InvalidRange] is the early return of line 925. *)
Definition extract (b : AudioBuffer.t) (startTime endTime : number) : trim_outcome :=
  let start := effectiveStart startTime in
  let end_ := effectiveEnd b endTime in
  if num_leb end_ start then InvalidRange
  else
    let length := num_sub (endSample b endTime) (startSample b startTime) in
    match AudioBuffer.createBuffer (AudioBuffer.numberOfChannels b) length
            (AudioBuffer.sampleRate b) with
    | Throw e => TrimThrew e
    | Ok newBuffer =>
        match for_loop (Z.to_nat (AudioBuffer.numberOfChannels b)) 0
                (copy_channel b (startSample b startTime) (endSample b endTime))
                newBuffer with
        | Throw e => TrimThrew e
        | Ok filled => Trimmed filled
        end
    end.

(** The React state of the component that [handleTrim] reads and sets.
    [output] stands for the object URL of the encoded blob. *)
Record TrimmerState : Type := mk_trimmer {
  audioBuffer : option AudioBuffer.t;
  startTime : number;
  endTime : number;
  output : option (list byte);
  status : string
}.

Definition setStatus (s : string) (st : TrimmerState) : TrimmerState :=
  mk_trimmer (audioBuffer st) (startTime st) (endTime st) (output st) s.

Definition setOutput (o : list byte) (st : TrimmerState) : TrimmerState :=
  mk_trimmer (audioBuffer st) (startTime st) (endTime st) (Some o) (status st).

(** The state after the handler and the exception that escaped it, if any;
    [None] if the encoder did not return. *)
Definition handleTrim (st : TrimmerState) : option (TrimmerState * option exn) :=
  match audioBuffer st with
  | None => Some (st, None)
  | Some b =>
      let st1 := setStatus "Trimming..." st in
      match extract b (startTime st) (endTime st) with
      | InvalidRange =>
          Some (setStatus "Error: End time must be after start time." st1, None)
      | TrimThrew e => Some (st1, Some e)
      | Trimmed newBuffer =>
          match audioBufferToWav newBuffer with
          | None => None
          | Some (Throw e) => Some (st1, Some e)
          | Some (Ok wavBuffer) =>
              Some (setStatus "Trimming complete." (setOutput wavBuffer st1), None)
          end
      end
  end.

(** ** Sample buffers used as examples *)

Definition mono_sample (rate : Z) (x : number) : AudioBuffer.t :=
  AudioBuffer.mk 1 1 rate [[x]].

Definition stereo_example (rate : Z) : AudioBuffer.t :=
  AudioBuffer.mk 2 2 rate [[Fin 0; Fin (1 # 2)]; [Fin (-1 # 2); Fin (1 # 4)]].

(** Three frames at 8 kHz; one frame at 3007 Hz; fifteen frames at 44.1 kHz. *)
Definition three_frames : AudioBuffer.t :=
  AudioBuffer.mk 1 3 8000 [[Fin (1 # 4); Fin (1 # 2); Fin (3 # 4)]].

Definition one_frame : AudioBuffer.t := AudioBuffer.mk 1 1 3007 [[Fin (1 # 2)]].

Definition fifteen_frames : AudioBuffer.t :=
  AudioBuffer.mk 1 15 44100 [map (fun n => Fin (n # 16)) [1; 2; 3; 4; 5; 6; 7; 8; 9; 10; 11; 12; 13; 14; 15]].

(** * Facts about the number model *)

Section Pow2.

Local Open Scope Q_scope.

Lemma pow2_pos (k : Z) : 0 < pow2 k.
Proof. apply Qpower_0_lt. reflexivity. Qed.

Lemma pow2_add (a b : Z) : pow2 (a + b) == pow2 a * pow2 b.
Proof. apply Qpower_plus. discriminate. Qed.

Lemma pow2_le (a b : Z) : (a <= b)%Z -> pow2 a <= pow2 b.
Proof. intros H. apply Qpower_le_compat_l; [exact H | discriminate]. Qed.

Lemma pow2_lt (a b : Z) : (a < b)%Z -> pow2 a < pow2 b.
Proof. intros H. apply Qpower_lt_compat_l; [exact H | reflexivity]. Qed.

Lemma pow2_Z (k : Z) : (0 <= k)%Z -> pow2 k == inject_Z (2 ^ k).
Proof. intros H. unfold pow2. rewrite Zpower_Qpower by exact H. reflexivity. Qed.

Lemma pow2_sub (a b : Z) : pow2 (a - b) == pow2 a / pow2 b.
Proof.
  pose proof (pow2_pos b) as Hb.
  pose proof (pow2_add (a - b) b) as H.
  replace (a - b + b)%Z with a in H by ring.
  rewrite H. field. lra.
Qed.

End Pow2.

Section Rounding.

Local Open Scope Q_scope.

Lemma rne_floor (x : Q) : (Qfloor x <= rne x <= Qfloor x + 1)%Z.
Proof.
  unfold rne. destruct (x - inject_Z (Qfloor x) ?= 1 # 2); try lia.
  destruct (Z.even (Qfloor x)); lia.
Qed.

Lemma rne_err (x : Q) :
  inject_Z (rne x) - (1 # 2) <= x /\ x <= inject_Z (rne x) + (1 # 2).
Proof.
  pose proof (Qfloor_le x) as Hlo. pose proof (Qlt_floor x) as Hhi.
  rewrite inject_Z_plus in Hhi. change (inject_Z 1) with 1 in Hhi. unfold rne.
  destruct (Qcompare_spec (x - inject_Z (Qfloor x)) (1 # 2)) as [H | H | H];
    try destruct (Z.even (Qfloor x));
    rewrite ?inject_Z_plus; change (inject_Z 1) with 1; split; lra.
Qed.

Lemma rne_mono (x y : Q) : x <= y -> (rne x <= rne y)%Z.
Proof.
  intros Hxy.
  pose proof (Qfloor_resp_le _ _ Hxy) as Hf.
  pose proof (rne_floor x) as Hx. pose proof (rne_floor y) as Hy.
  destruct (Z.eq_dec (Qfloor x) (Qfloor y)) as [E | E]; [ | lia].
  unfold rne. rewrite E.
  destruct (Qcompare_spec (x - inject_Z (Qfloor y)) (1 # 2)) as [H1 | H1 | H1];
    destruct (Qcompare_spec (y - inject_Z (Qfloor y)) (1 # 2)) as [H2 | H2 | H2];
    try destruct (Z.even (Qfloor y)); try lia; exfalso; lra.
Qed.

Lemma rne_comp (x y : Q) : x == y -> rne x = rne y.
Proof.
  intros E. apply Z.le_antisymm; apply rne_mono; rewrite E; apply Qle_refl.
Qed.

Lemma rne_Z (z : Z) : rne (inject_Z z) = z.
Proof.
  unfold rne. rewrite Qfloor_Z.
  destruct (Qcompare_spec (inject_Z z - inject_Z z) (1 # 2)) as [H | H | H];
    [exfalso; lra | reflexivity | exfalso; lra].
Qed.

Lemma ilog2_spec (x : Q) :
  0 < x -> pow2 (ilog2 x) <= x /\ x < pow2 (ilog2 x + 1).
Proof.
  intros Hx. destruct x as [p q].
  assert (Hp : (0 < p)%Z) by (unfold Qlt in Hx; simpl in Hx; lia).
  destruct (Z.log2_spec p Hp) as [Ha1 Ha2].
  destruct (Z.log2_spec (Zpos q) (Pos2Z.is_pos q)) as [Hb1 Hb2].
  pose proof (Z.log2_nonneg p) as Ha0. pose proof (Z.log2_nonneg (Zpos q)) as Hb0.
  unfold ilog2. cbn [Qnum Qden].
  set (a := Z.log2 p) in *. set (b := Z.log2 (Zpos q)) in *.
  assert (Hq : 0 < inject_Z (Zpos q)) by reflexivity.
  assert (Ex : p # q == inject_Z p / inject_Z (Zpos q)) by apply Qmake_Qdiv.
  assert (Ea : pow2 a == inject_Z (2 ^ a)) by (apply pow2_Z; exact Ha0).
  assert (Eb : pow2 b == inject_Z (2 ^ b)) by (apply pow2_Z; exact Hb0).
  assert (Ea' : pow2 (a + 1) == inject_Z (2 ^ Z.succ a))
    by (apply pow2_Z; lia).
  assert (Eb' : pow2 (b + 1) == inject_Z (2 ^ Z.succ b))
    by (apply pow2_Z; lia).
  rewrite Zle_Qle in Ha1, Hb1. rewrite Zlt_Qlt in Ha2, Hb2.
  rewrite <- Ea in Ha1. rewrite <- Eb in Hb1.
  rewrite <- Ea' in Ha2. rewrite <- Eb' in Hb2.
  pose proof (pow2_pos (a - b)) as Hl. pose proof (pow2_pos (a - b - 1)) as Hl1.
  pose proof (pow2_pos b) as Hbp.
  destruct (Qle_bool (pow2 (a - b)) (p # q)) eqn:Hc.
  - apply Qle_bool_iff in Hc. split; [exact Hc | ].
    rewrite Ex. apply Qlt_shift_div_r; [exact Hq | ].
    assert (E : pow2 (a + 1) == pow2 (a - b + 1) * pow2 b).
    { rewrite <- pow2_add. replace (a - b + 1 + b)%Z with (a + 1)%Z by ring.
      reflexivity. }
    pose proof (pow2_pos (a - b + 1)) as Hl2.
    apply Qlt_le_trans with (pow2 (a + 1)); [exact Ha2 | ].
    rewrite E. apply Qmult_le_l; assumption.
  - assert (Hlt : p # q < pow2 (a - b)).
    { apply Qnot_le_lt. intros H. apply Qle_bool_iff in H. congruence. }
    replace (a - b - 1 + 1)%Z with (a - b)%Z by ring.
    split; [ | exact Hlt].
    rewrite Ex. apply Qle_shift_div_l; [exact Hq | ].
    assert (E : pow2 a == pow2 (a - b - 1) * pow2 (b + 1)).
    { rewrite <- pow2_add. replace (a - b - 1 + (b + 1))%Z with a by ring.
      reflexivity. }
    apply Qle_trans with (pow2 a); [ | exact Ha1].
    rewrite E. apply Qmult_le_l; [exact Hl1 | ]. apply Qlt_le_weak. exact Hb2.
Qed.

Lemma ilog2_ge (x : Q) (k : Z) : 0 < x -> pow2 k <= x -> (k <= ilog2 x)%Z.
Proof.
  intros Hx Hk. destruct (ilog2_spec x Hx) as [_ Hhi].
  assert (H : pow2 k < pow2 (ilog2 x + 1)) by (eapply Qle_lt_trans; eassumption).
  apply Qpower_lt_compat_l_inv in H; [lia | reflexivity].
Qed.

Lemma ilog2_lt (x : Q) (k : Z) : 0 < x -> x < pow2 k -> (ilog2 x < k)%Z.
Proof.
  intros Hx Hk. destruct (ilog2_spec x Hx) as [Hlo _].
  assert (H : pow2 (ilog2 x) < pow2 k) by (eapply Qle_lt_trans; eassumption).
  apply Qpower_lt_compat_l_inv in H; [lia | reflexivity].
Qed.

Lemma ilog2_mono (x y : Q) : 0 < x -> x <= y -> (ilog2 x <= ilog2 y)%Z.
Proof.
  intros Hx Hxy. apply ilog2_ge; [lra | ].
  destruct (ilog2_spec x Hx) as [Hlo _]. lra.
Qed.

End Rounding.

Section Grid.

Local Open Scope Q_scope.

Variable u : Z.

Lemma to_grid_mono (x y : Q) : x <= y -> to_grid u x <= to_grid u y.
Proof.
  intros H. pose proof (pow2_pos u) as Hu. unfold to_grid.
  apply Qmult_le_compat_r; [ | lra].
  rewrite <- Zle_Qle. apply rne_mono.
  apply Qmult_le_compat_r; [exact H | ].
  apply Qlt_le_weak, Qinv_lt_0_compat, Hu.
Qed.

Lemma to_grid_comp (x y : Q) : x == y -> to_grid u x == to_grid u y.
Proof.
  intros E. apply Qle_antisym; apply to_grid_mono; rewrite E; apply Qle_refl.
Qed.

Lemma to_grid_point (m : Z) : to_grid u (inject_Z m * pow2 u) == inject_Z m * pow2 u.
Proof.
  pose proof (pow2_pos u) as Hu. unfold to_grid.
  assert (E : inject_Z m * pow2 u / pow2 u == inject_Z m) by (field; lra).
  rewrite (rne_comp _ _ E), rne_Z. reflexivity.
Qed.

Lemma to_grid_le (m : Z) (x : Q) :
  x <= inject_Z m * pow2 u -> to_grid u x <= inject_Z m * pow2 u.
Proof. intros H. rewrite <- (to_grid_point m). apply to_grid_mono, H. Qed.

Lemma to_grid_ge (m : Z) (x : Q) :
  inject_Z m * pow2 u <= x -> inject_Z m * pow2 u <= to_grid u x.
Proof. intros H. rewrite <- (to_grid_point m). apply to_grid_mono, H. Qed.

Lemma to_grid_err (x : Q) :
  x - pow2 u * (1 # 2) <= to_grid u x /\ to_grid u x <= x + pow2 u * (1 # 2).
Proof.
  pose proof (pow2_pos u) as Hu. unfold to_grid.
  destruct (rne_err (x / pow2 u)) as [H1 H2].
  set (m := inject_Z (rne (x / pow2 u))) in *.
  assert (E : x == x / pow2 u * pow2 u) by (field; lra).
  set (s := x / pow2 u) in *.
  split; rewrite E at 1.
  - assert (H : (s - (1 # 2)) * pow2 u <= m * pow2 u)
      by (apply Qmult_le_compat_r; lra).
    lra.
  - assert (H : (m - (1 # 2)) * pow2 u <= s * pow2 u)
      by (apply Qmult_le_compat_r; lra).
    lra.
Qed.

Lemma pow2_grid_point (k : Z) :
  (u <= k)%Z -> pow2 k == inject_Z (2 ^ (k - u)) * pow2 u.
Proof.
  intros H. rewrite <- pow2_Z by lia. rewrite <- pow2_add.
  replace (k - u + u)%Z with k by ring. reflexivity.
Qed.

End Grid.

Section RoundPos.

Local Open Scope Q_scope.

Lemma inject_Z_lt (a b : Z) : (a < b)%Z -> inject_Z a < inject_Z b.
Proof. rewrite <- Zlt_Qlt. auto. Qed.

Lemma inject_Z_le (a b : Z) : (a <= b)%Z -> inject_Z a <= inject_Z b.
Proof. rewrite <- Zle_Qle. auto. Qed.

Lemma to_grid_zero (u : Z) (x : Q) : x == 0 -> to_grid u x == 0.
Proof.
  intros E. pose proof (pow2_pos u) as Hu. unfold to_grid.
  assert (E1 : x / pow2 u == inject_Z 0).
  { rewrite E. change (inject_Z 0) with 0. field. lra. }
  rewrite (rne_comp _ _ E1), rne_Z. change (inject_Z 0) with 0. ring.
Qed.

Lemma round_pos_zero (x : Q) : x == 0 -> round_pos x == 0.
Proof. apply to_grid_zero. Qed.

Lemma round_pos_nonneg (x : Q) : 0 <= x -> 0 <= round_pos x.
Proof.
  intros H. unfold round_pos.
  apply Qle_trans with (inject_Z 0 * pow2 (ulp_exp x)); [ring_simplify; apply Qle_refl | ].
  apply to_grid_ge. ring_simplify. exact H.
Qed.

Lemma ulp_exp_mono (x y : Q) : 0 < x -> x <= y -> (ulp_exp x <= ulp_exp y)%Z.
Proof.
  intros Hx Hxy. pose proof (ilog2_mono x y Hx Hxy). unfold ulp_exp. lia.
Qed.

(** Below the binade of [y], and at least its lower end. *)
Lemma round_pos_binade_hi (x : Q) (k : Z) :
  0 < x -> x <= pow2 k -> (ulp_exp x <= k)%Z -> round_pos x <= pow2 k.
Proof.
  intros Hx Hk Hu. unfold round_pos.
  rewrite (pow2_grid_point (ulp_exp x) k Hu) in Hk |- *.
  apply to_grid_le, Hk.
Qed.

Lemma round_pos_binade_lo (x : Q) (k : Z) :
  0 < x -> pow2 k <= x -> (ulp_exp x <= k)%Z -> pow2 k <= round_pos x.
Proof.
  intros Hx Hk Hu. unfold round_pos.
  rewrite (pow2_grid_point (ulp_exp x) k Hu) in Hk |- *.
  apply to_grid_ge, Hk.
Qed.

Lemma round_pos_mono (x y : Q) : 0 <= x -> x <= y -> round_pos x <= round_pos y.
Proof.
  intros Hx0 Hxy.
  destruct (Qlt_le_dec 0 x) as [Hx | Hx].
  2: { rewrite (round_pos_zero x) by lra. apply round_pos_nonneg. lra. }
  assert (Hy : 0 < y) by lra.
  pose proof (ulp_exp_mono x y Hx Hxy) as Hu.
  destruct (Z.eq_dec (ulp_exp x) (ulp_exp y)) as [E | E].
  - unfold round_pos. rewrite E. apply to_grid_mono, Hxy.
  - destruct (ilog2_spec x Hx) as [_ Hxhi].
    destruct (ilog2_spec y Hy) as [Hylo _].
    assert (Hlt : (ilog2 x + 1 <= ilog2 y)%Z) by (unfold ulp_exp in *; lia).
    pose proof (pow2_le _ _ Hlt) as Hp.
    apply Qle_trans with (pow2 (ilog2 y)).
    + apply round_pos_binade_hi; [exact Hx | lra | unfold ulp_exp in *; lia].
    + apply round_pos_binade_lo; [exact Hy | exact Hylo | unfold ulp_exp in *; lia].
Qed.

Lemma round_pos_Z (n : Z) :
  (0 <= n < 2 ^ 53)%Z -> round_pos (inject_Z n) == inject_Z n.
Proof.
  intros [Hn0 Hn].
  destruct (Z.eq_dec n 0) as [-> | Hnz]; [apply round_pos_zero; reflexivity | ].
  assert (Hx : 0 < inject_Z n) by (apply (inject_Z_lt 0 n); lia).
  assert (Hlt : inject_Z n < pow2 53).
  { rewrite (pow2_Z 53) by lia. rewrite <- Zlt_Qlt. exact Hn. }
  pose proof (ilog2_lt _ _ Hx Hlt) as He.
  set (u := ulp_exp (inject_Z n)).
  assert (Hu : (u <= 0)%Z) by (unfold u, ulp_exp; lia).
  assert (E : inject_Z n == inject_Z (n * 2 ^ (- u)) * pow2 u).
  { rewrite inject_Z_mult, <- pow2_Z by lia.
    rewrite <- Qmult_assoc, <- pow2_add.
    replace (- u + u)%Z with 0%Z by ring. change (pow2 0) with 1. ring. }
  unfold round_pos. fold u. rewrite (to_grid_comp u _ _ E), to_grid_point.
  symmetry. exact E.
Qed.

Lemma round_pos_err (x : Q) :
  pow2 (-1022) <= x ->
  x * (1 - pow2 (-53)) <= round_pos x /\ round_pos x <= x * (1 + pow2 (-53)).
Proof.
  intros Hn. pose proof (pow2_pos (-1022)) as Hp.
  assert (Hx : 0 < x) by lra.
  pose proof (ilog2_ge x _ Hx Hn) as He.
  destruct (ilog2_spec x Hx) as [Hlo _].
  unfold round_pos.
  assert (Eu : ulp_exp x = (ilog2 x - 52)%Z) by (unfold ulp_exp; lia).
  rewrite Eu. destruct (to_grid_err (ilog2 x - 52) x) as [H1 H2].
  assert (E : pow2 (ilog2 x - 52) * (1 # 2) == pow2 (ilog2 x) * pow2 (-53)).
  { replace (ilog2 x - 52)%Z with (ilog2 x + -53 + 1)%Z by ring.
    rewrite !pow2_add. change (pow2 1) with 2. field. }
  rewrite E in H1, H2.
  assert (Hc : 0 < pow2 (-53)) by apply pow2_pos.
  assert (Hm : pow2 (ilog2 x) * pow2 (-53) <= x * pow2 (-53))
    by (apply Qmult_le_compat_r; lra).
  split; lra.
Qed.

End RoundPos.

Section RoundQ.

Local Open Scope Q_scope.

Lemma roundQ_nonneg (x : Q) : 0 <= x -> roundQ x = round_pos x.
Proof.
  intros H. unfold roundQ. apply Qle_bool_iff in H. rewrite H. reflexivity.
Qed.

Lemma roundQ_neg (x : Q) : x < 0 -> roundQ x = - round_pos (- x).
Proof.
  intros H. unfold roundQ.
  destruct (Qle_bool 0 x) eqn:E; [ | reflexivity].
  apply Qle_bool_iff in E. exfalso. lra.
Qed.

Lemma roundQ_mono (x y : Q) : x <= y -> roundQ x <= roundQ y.
Proof.
  intros H.
  destruct (Qlt_le_dec x 0) as [Hx | Hx]; destruct (Qlt_le_dec y 0) as [Hy | Hy].
  - rewrite (roundQ_neg x Hx), (roundQ_neg y Hy).
    assert (round_pos (- y) <= round_pos (- x)) by (apply round_pos_mono; lra).
    lra.
  - rewrite (roundQ_neg x Hx), (roundQ_nonneg y Hy).
    assert (0 <= round_pos (- x)) by (apply round_pos_nonneg; lra).
    assert (0 <= round_pos y) by (apply round_pos_nonneg; lra).
    lra.
  - exfalso. lra.
  - rewrite (roundQ_nonneg x Hx), (roundQ_nonneg y Hy).
    apply round_pos_mono; assumption.
Qed.

Lemma roundQ_Z (n : Z) :
  (- 2 ^ 53 < n < 2 ^ 53)%Z -> roundQ (inject_Z n) == inject_Z n.
Proof.
  intros Hn. destruct (Z_lt_le_dec n 0) as [Hneg | Hpos].
  - assert (H : inject_Z n < 0) by (apply (inject_Z_lt n 0); exact Hneg).
    rewrite (roundQ_neg _ H).
    change (- inject_Z n) with (inject_Z (- n)) at 1.
    rewrite round_pos_Z by lia. rewrite inject_Z_opp. ring.
  - assert (H : 0 <= inject_Z n) by (apply (inject_Z_le 0 n); exact Hpos).
    rewrite (roundQ_nonneg _ H). apply round_pos_Z. lia.
Qed.

(** A result between two integers of at most 53 bits is finite. *)
Lemma round64_bounded (lo hi : Z) (x : Q) :
  (- 2 ^ 53 < lo)%Z -> (hi < 2 ^ 53)%Z ->
  inject_Z lo <= x -> x <= inject_Z hi ->
  exists y, round64 x = Fin y /\ y == roundQ x /\
            inject_Z lo <= y /\ y <= inject_Z hi.
Proof.
  intros Hlo Hhi Hx1 Hx2.
  assert (Hle : (lo <= hi)%Z) by (rewrite Zle_Qle; lra).
  pose proof (roundQ_mono _ _ Hx1) as H1. pose proof (roundQ_mono _ _ Hx2) as H2.
  rewrite roundQ_Z in H1, H2 by lia.
  assert (Hbig : inject_Z (2 ^ 53) <= pow2 1024).
  { rewrite <- pow2_Z by lia. apply pow2_le. lia. }
  assert (Hh : inject_Z hi < inject_Z (2 ^ 53)) by (rewrite <- Zlt_Qlt; exact Hhi).
  assert (Hl : inject_Z (- 2 ^ 53) < inject_Z lo) by (rewrite <- Zlt_Qlt; exact Hlo).
  rewrite inject_Z_opp in Hl.
  exists (Qred (roundQ x)). unfold round64.
  destruct (Qle_bool (pow2 1024) (roundQ x)) eqn:E1.
  { apply Qle_bool_iff in E1. exfalso. lra. }
  destruct (Qle_bool (roundQ x) (- pow2 1024)) eqn:E2.
  { apply Qle_bool_iff in E2. exfalso. lra. }
  pose proof (Qred_correct (roundQ x)) as Er.
  split; [reflexivity | ]. split; [exact Er | ]. split; lra.
Qed.

End RoundQ.

(** * Facts about lists and byte buffers *)

Section Lists.

Context {A : Type}.

Lemma firstn_length_app (l1 l2 : list A) : firstn (List.length l1) (l1 ++ l2) = l1.
Proof. induction l1 as [ | a l1 IH]; simpl; [destruct l2 | rewrite IH]; reflexivity. Qed.

Lemma skipn_length_app (l1 l2 : list A) (n : nat) :
  skipn (List.length l1 + n) (l1 ++ l2) = skipn n l2.
Proof. induction l1 as [ | a l1 IH]; simpl; [reflexivity | exact IH]. Qed.

Lemma skipn_length_app0 (l1 l2 : list A) : skipn (List.length l1) (l1 ++ l2) = l2.
Proof. induction l1 as [ | a l1 IH]; simpl; [reflexivity | exact IH]. Qed.

Lemma slice_app_mid (pre mid post : list A) :
  slice (Z.of_nat (List.length pre))
        (Z.of_nat (List.length pre) + Z.of_nat (List.length mid))
        (pre ++ mid ++ post) = mid.
Proof.
  unfold slice. rewrite Nat2Z.id, skipn_length_app0.
  replace (Z.to_nat _) with (List.length mid) by lia.
  apply firstn_length_app.
Qed.

End Lists.

Lemma le_bytes_length (n : nat) (v : Z) : List.length (le_bytes n v) = n.
Proof. revert v. induction n as [ | n IH]; intros v; simpl; [ | rewrite IH]; reflexivity. Qed.

Lemma le_value_le_bytes (n : nat) (v : Z) :
  le_value (le_bytes n v) = v mod 256 ^ Z.of_nat n.
Proof.
  revert v. induction n as [ | n IH]; intros v.
  - simpl. rewrite Z.mod_1_r. reflexivity.
  - cbn [le_bytes le_value]. rewrite IH.
    rewrite Nat2Z.inj_succ, Z.pow_succ_r by lia.
    rewrite Z.rem_mul_r by lia. reflexivity.
Qed.

Lemma write_at_zeros (pre bs : list byte) (k : nat) :
  write_at (pre ++ repeat 0 (List.length bs + k)) (Z.of_nat (List.length pre)) bs
  = Ok ((pre ++ bs) ++ repeat 0 k).
Proof.
  unfold write_at.
  rewrite length_app, repeat_length.
  replace ((0 <=? _) && _) with true
    by (symmetry; apply andb_true_intro; split; [apply Z.leb_le | apply Z.leb_le]; lia).
  rewrite Nat2Z.id, firstn_length_app.
  replace (Z.to_nat _) with (List.length pre + List.length bs)%nat by lia.
  rewrite skipn_length_app, repeat_app.
  rewrite <- (repeat_length 0 (List.length bs)) at 1.
  rewrite skipn_length_app0, <- app_assoc. reflexivity.
Qed.

(** * The encoder *)

Section Header.

(** What the closures [setUint16] and [setUint32] do to a state whose
    unwritten part is still zero. *)
Lemma store_zeros (w : list byte -> Z -> result (list byte)) (width : nat)
  (bs pre : list byte) (k : nat) (st : wav_state) :
  List.length bs = width ->
  (forall buf p, w buf p = write_at buf p bs) ->
  view st = pre ++ repeat 0 (width + k) ->
  pos st = Z.of_nat (List.length pre) ->
  store w (Z.of_nat width) st =
  Ok (tt, mk_wav ((pre ++ bs) ++ repeat 0 k) (Z.of_nat (List.length (pre ++ bs)))
            (in_bounds st)).
Proof.
  intros Hl Hw Hv Hp. unfold store. rewrite Hw, Hv, Hp, <- Hl, write_at_zeros.
  rewrite length_app. do 3 f_equal. lia.
Qed.

End Header.

Section Writes.

(** [writes m p bs]: started at position [p] on a buffer whose unwritten part
    is zero, [m] stores [bs] and advances the cursor past it. *)
Definition writes (m : Wav unit) (p : Z) (bs : list byte) : Prop :=
  forall (pre : list byte) (k : nat) (ib : bool),
    Z.of_nat (List.length pre) = p ->
    m (mk_wav (pre ++ repeat 0 (List.length bs + k)) p ib)
    = Ok (tt, mk_wav ((pre ++ bs) ++ repeat 0 k) (p + Z.of_nat (List.length bs)) ib).

Lemma writes_store (w : list byte -> Z -> result (list byte)) (width : nat)
  (bs : list byte) (p : Z) :
  List.length bs = width ->
  (forall buf q, w buf q = write_at buf q bs) ->
  writes (store w (Z.of_nat width)) p bs.
Proof.
  intros Hl Hw pre k ib Hp. unfold store. cbn [view pos in_bounds].
  rewrite Hw, <- Hp, write_at_zeros, Hl. reflexivity.
Qed.

Lemma writes_setUint32 (data p : Z) :
  writes (setUint32 data) p (le_bytes 4 (data mod 2 ^ 32)).
Proof. apply (writes_store _ 4%nat); reflexivity. Qed.

Lemma writes_setUint16 (data p : Z) :
  writes (setUint16 data) p (le_bytes 2 (data mod 2 ^ 16)).
Proof. apply (writes_store _ 2%nat); reflexivity. Qed.

Lemma writes_seq (m1 m2 : Wav unit) (p : Z) (b1 b2 : list byte) :
  writes m1 p b1 ->
  writes m2 (p + Z.of_nat (List.length b1)) b2 ->
  writes (m1 ;; m2) p (b1 ++ b2).
Proof.
  intros H1 H2 pre k ib Hp. unfold wbind.
  rewrite length_app, <- Nat.add_assoc, (H1 pre _ ib Hp).
  rewrite (H2 (pre ++ b1) k ib) by (rewrite length_app; lia).
  rewrite <- !app_assoc, Nat2Z.inj_add. do 3 f_equal. lia.
Qed.

Lemma writes_get_pos (k : Z -> Wav unit) (p : Z) (bs : list byte) :
  writes (k p) p bs -> writes (wbind get_pos k) p bs.
Proof. intros H pre n ib Hp. unfold wbind, get_pos. cbn [pos]. apply H, Hp. Qed.

Lemma write_header_writes (numOfChan len sampleRate : Z) :
  writes (write_header numOfChan len sampleRate) 0
         (header_bytes numOfChan len sampleRate).
Proof.
  unfold write_header, header_bytes.
  repeat lazymatch goal with
         | |- writes (wbind (setUint32 ?d) _) ?p (_ ++ _) =>
             apply writes_seq; [exact (writes_setUint32 d p) | ]
         | |- writes (wbind (setUint16 ?d) _) ?p (_ ++ _) =>
             apply writes_seq; [exact (writes_setUint16 d p) | ]
         end.
  apply writes_get_pos. cbn [List.length le_bytes Z.of_nat Pos.of_succ_nat Pos.succ Z.add Pos.add].
  apply writes_setUint32.
Qed.

Lemma header_bytes_length (numOfChan len sampleRate : Z) :
  List.length (header_bytes numOfChan len sampleRate) = 44%nat.
Proof. reflexivity. Qed.

End Writes.

Section Samples.

Lemma skipn_nth_error {A : Type} (l : list A) (i : nat) (x : A) :
  nth_error l i = Some x -> skipn i l = x :: skipn (S i) l.
Proof.
  revert i. induction l as [ | a l IH]; intros [ | i] H; simpl in *; try discriminate.
  - injection H as ->. reflexivity.
  - apply IH, H.
Qed.

Lemma flat_map_flat_map {A B C : Type} (f : A -> list B) (g : B -> list C) (l : list A) :
  flat_map g (flat_map f l) = flat_map (fun x => flat_map g (f x)) l.
Proof.
  induction l as [ | a l IH]; simpl; [reflexivity | ].
  rewrite flat_map_app, IH. reflexivity.
Qed.

Lemma int16_bytes_length (l : list number) :
  List.length (flat_map int16_bytes l) = (2 * List.length l)%nat.
Proof. induction l as [ | x l IH]; simpl; [reflexivity | rewrite IH; lia]. Qed.

Lemma frame_length (channels : list (list number)) (offset : nat) :
  List.length (frame channels offset) = List.length channels.
Proof. apply length_map. Qed.

Variable channels : list (list number).
Variable frames : nat.
Hypothesis channels_length : Forall (fun c => List.length c = frames) channels.

Lemma read_channel_in_bounds (i offset : nat) (c : list number) :
  nth_error channels i = Some c -> (offset < frames)%nat ->
  read_channel channels (Z.of_nat i) (Z.of_nat offset) = Ok (Some (nth offset c NaN)).
Proof.
  intros Hc Ho. unfold read_channel. rewrite Nat2Z.id, Hc.
  assert (Hl : List.length c = frames).
  { rewrite Forall_forall in channels_length. apply channels_length.
    eapply nth_error_In, Hc. }
  replace ((0 <=? _) && _) with true
    by (symmetry; apply andb_true_intro; split; [apply Z.leb_le | apply Z.ltb_lt]; lia).
  rewrite Nat2Z.id. f_equal. apply nth_error_nth'. lia.
Qed.

(** The inner [for] loop stores one frame. *)
Lemma write_frame_spec (offset : nat) :
  (offset < frames)%nat ->
  forall (n i : nat) (pre : list byte) (k : nat),
    (i + n = List.length channels)%nat ->
    for_loop n (Z.of_nat i) (write_sample channels (Z.of_nat offset))
      (mk_wav (pre ++ repeat 0 (2 * n + k)) (Z.of_nat (List.length pre)) true)
    = Ok (mk_wav ((pre ++ flat_map int16_bytes (frame (skipn i channels) offset))
                    ++ repeat 0 k)
            (Z.of_nat (List.length pre) + 2 * Z.of_nat n) true).
Proof.
  intros Ho. induction n as [ | n IH]; intros i pre k Hi.
  - simpl. rewrite skipn_all2 by lia. simpl. rewrite app_nil_r.
    do 2 f_equal. lia.
  - destruct (nth_error channels i) as [c | ] eqn:Hc.
    2: { apply nth_error_None in Hc. lia. }
    cbn [for_loop]. unfold write_sample at 1.
    rewrite (read_channel_in_bounds i offset c Hc Ho). cbn [view pos in_bounds].
    unfold DataView_setInt16.
    replace (2 * S n + k)%nat
      with (List.length (le_bytes 2 (quantize (nth offset c NaN) mod 2 ^ 16))
            + (2 * n + k))%nat by (rewrite le_bytes_length; lia).
    rewrite write_at_zeros.
    replace (Z.of_nat (List.length pre) + 2)
      with (Z.of_nat (List.length
              (pre ++ le_bytes 2 (quantize (nth offset c NaN) mod 2 ^ 16))))
      by (rewrite length_app, le_bytes_length; lia).
    replace (Z.of_nat i + 1) with (Z.of_nat (S i)) by lia.
    rewrite IH by lia.
    rewrite (skipn_nth_error _ _ _ Hc). cbn [frame map flat_map].
    fold (frame (skipn (S i) channels) offset). unfold int16_bytes at 2.
    rewrite <- !app_assoc. do 2 f_equal.
    rewrite length_app, le_bytes_length. lia.
Qed.

Hypothesis channels_nonempty : (0 < List.length channels)%nat.

(** The [while] loop stores the remaining frames; one unit of fuel each. *)
Lemma write_frames_spec (m : nat) :
  forall (offset fuel : nat) (pre : list byte) (len : Z),
    (offset + m = frames)%nat -> (m <= fuel)%nat ->
    len = Z.of_nat (List.length pre) + Z.of_nat (2 * List.length channels * m) ->
    write_frames fuel channels (Z.of_nat (List.length channels)) len (Z.of_nat offset)
      (mk_wav (pre ++ repeat 0 (2 * List.length channels * m))
         (Z.of_nat (List.length pre)) true)
    = Some (Ok (mk_wav
                  (pre ++ flat_map (fun f => flat_map int16_bytes (frame channels f))
                            (seq offset m))
                  len true)).
Proof.
  induction m as [ | m IH]; intros offset fuel pre len Ho Hf Hlen.
  - assert (E : len = Z.of_nat (List.length pre)) by lia.
    destruct fuel; cbn [write_frames pos]; rewrite E, Z.ltb_irrefl;
      rewrite Nat.mul_0_r; reflexivity.
  - destruct fuel as [ | fuel]; [lia | ].
    cbn [write_frames pos].
    replace (Z.of_nat (List.length pre) <? len) with true
      by (symmetry; apply Z.ltb_lt; nia).
    rewrite Nat2Z.id.
    replace (2 * List.length channels * S m)%nat
      with (2 * List.length channels + 2 * List.length channels * m)%nat by lia.
    pose proof (write_frame_spec offset ltac:(lia) (List.length channels) 0 pre
                  (2 * List.length channels * m) eq_refl) as Hin.
    cbn [Z.of_nat skipn] in Hin. rewrite Hin.
    set (fb := flat_map int16_bytes (frame channels offset)).
    assert (Hfb : List.length fb = (2 * List.length channels)%nat)
      by (unfold fb; rewrite int16_bytes_length, frame_length; reflexivity).
    replace (Z.of_nat (List.length pre) + 2 * Z.of_nat (List.length channels))
      with (Z.of_nat (List.length (pre ++ fb))) by (rewrite length_app; lia).
    replace (Z.of_nat offset + 1) with (Z.of_nat (S offset)) by lia.
    rewrite (IH (S offset) fuel (pre ++ fb) len) by (rewrite ?length_app; lia).
    cbn [seq flat_map]. fold fb. rewrite <- app_assoc. reflexivity.
Qed.

End Samples.

Lemma data_size (L : Z) (N : nat) :
  0 <= L -> Z.of_nat (2 * N * Z.to_nat L) = L * Z.of_nat N * 2.
Proof. intros H. rewrite !Nat2Z.inj_mul, Z2Nat.id by lia. simpl Z.of_nat. ring. Qed.

Lemma total_size (L : Z) (N : nat) :
  0 <= L -> Z.to_nat (L * Z.of_nat N * 2 + 44) = (44 + 2 * N * Z.to_nat L)%nat.
Proof.
  intros H. apply Nat2Z.inj. rewrite Nat2Z.inj_add, data_size by lia.
  rewrite Z2Nat.id by nia. simpl Z.of_nat. ring.
Qed.

Section Encode.

Variable b : AudioBuffer.t.
Hypothesis b_valid : AudioBuffer.valid b.

Lemma valid_channels :
  Forall (fun c => List.length c = Z.to_nat (AudioBuffer.length b))
         (AudioBuffer.channelData b).
Proof.
  destruct b_valid as (_ & _ & _ & _ & H).
  eapply Forall_impl; [ | exact H]. cbv beta. intros c Hc. lia.
Qed.

Lemma collect_channels_loop (n i : nat) (acc : list (list number)) :
  (i + n = List.length (AudioBuffer.channelData b))%nat ->
  for_loop n (Z.of_nat i)
    (fun i channels =>
       match AudioBuffer.getChannelData b i with
       | Ok c => Ok (channels ++ [c])
       | Throw e => Throw e
       end) acc
  = Ok (acc ++ skipn i (AudioBuffer.channelData b)).
Proof.
  destruct b_valid as (_ & _ & _ & Hn & _).
  revert i acc. induction n as [ | n IH]; intros i acc Hi.
  - simpl. rewrite skipn_all2 by lia. rewrite app_nil_r. reflexivity.
  - destruct (nth_error (AudioBuffer.channelData b) i) as [c | ] eqn:Hc.
    2: { apply nth_error_None in Hc. lia. }
    cbn [for_loop]. unfold AudioBuffer.getChannelData at 1.
    replace ((0 <=? _) && _) with true
      by (symmetry; apply andb_true_intro; split; [apply Z.leb_le | apply Z.ltb_lt]; lia).
    rewrite Nat2Z.id, Hc.
    replace (Z.of_nat i + 1) with (Z.of_nat (S i)) by lia.
    rewrite IH by lia. rewrite (skipn_nth_error _ _ _ Hc), <- app_assoc. reflexivity.
Qed.

Lemma collect_channels_valid : collect_channels b = Ok (AudioBuffer.channelData b).
Proof.
  destruct b_valid as (_ & _ & _ & Hn & _).
  unfold collect_channels.
  apply (collect_channels_loop (Z.to_nat (AudioBuffer.numberOfChannels b)) 0 []).
  rewrite <- Hn, Nat2Z.id. reflexivity.
Qed.

(** With one unit of fuel per frame the encoder returns the header followed
    by the data section, and reads no channel past its end. *)
Lemma encode_spec (fuel : nat) :
  (Z.to_nat (AudioBuffer.length b) <= fuel)%nat ->
  encode fuel b = Some (Ok (mk_wav (wav_bytes b) (wav_length b) true)).
Proof.
  intros Hf. pose proof valid_channels as Hch. pose proof collect_channels_valid as Hcc.
  destruct b_valid as (Hr & Hc & Hl & Hn & _).
  unfold encode, wav_bytes. cbv zeta. fold (wav_length b). rewrite Hcc.
  assert (Elen : wav_length b
                 = Z.of_nat 44 + Z.of_nat (2 * List.length (AudioBuffer.channelData b)
                                           * Z.to_nat (AudioBuffer.length b))).
  { rewrite data_size by lia. unfold wav_length. rewrite Hn. lia. }
  set (len := wav_length b) in *.
  set (cd := AudioBuffer.channelData b) in *.
  set (frames := Z.to_nat (AudioBuffer.length b)) in *.
  set (hd := header_bytes (AudioBuffer.numberOfChannels b) len (AudioBuffer.sampleRate b)).
  assert (Hhd : List.length hd = 44%nat) by reflexivity.
  assert (Ebuf : new_ArrayBuffer len
                 = [] ++ repeat 0 (List.length hd + 2 * List.length cd * frames)).
  { unfold new_ArrayBuffer. rewrite Hhd. cbn [app]. f_equal. lia. }
  rewrite Ebuf.
  pose proof (write_header_writes (AudioBuffer.numberOfChannels b) len
                (AudioBuffer.sampleRate b) [] (2 * List.length cd * frames)%nat
                true eq_refl) as Hw.
  fold hd in Hw. rewrite Hw. cbn [app]. rewrite <- Hn. rewrite Z.add_0_l.
  change 0 with (Z.of_nat 0) at 1.
  rewrite (write_frames_spec cd frames Hch ltac:(lia) frames 0 fuel hd len);
    [ | lia | exact Hf | rewrite Hhd; exact Elen ].
  unfold data_bytes, interleave. rewrite flat_map_flat_map. reflexivity.
Qed.

Lemma audioBufferToWav_spec : audioBufferToWav b = Some (Ok (wav_bytes b)).
Proof. unfold audioBufferToWav. rewrite encode_spec by lia. reflexivity. Qed.

End Encode.

(** * Quantization *)

Section Quantize.

Lemma Qltb_true (x y : Q) : Qltb x y = true <-> (x < y)%Q.
Proof.
  unfold Qltb. rewrite negb_true_iff. split; intros H.
  - apply Qnot_le_lt. intros Hle. apply Qle_bool_iff in Hle. congruence.
  - destruct (Qle_bool y x) eqn:E; [ | reflexivity].
    apply Qle_bool_iff in E. exfalso. apply (Qlt_not_le _ _ H E).
Qed.

Lemma Qltb_false (x y : Q) : Qltb x y = false <-> (y <= x)%Q.
Proof.
  unfold Qltb. rewrite negb_false_iff. apply Qle_bool_iff.
Qed.

Lemma Qtrunc_bounds (lo hi : Z) (y : Q) :
  (inject_Z lo <= y)%Q -> (y <= inject_Z hi)%Q -> lo <= Qtrunc y <= hi.
Proof.
  intros H1 H2. unfold Qtrunc. destruct (Qle_bool 0 y).
  - rewrite <- (Qfloor_Z lo), <- (Qfloor_Z hi). split; apply Qfloor_resp_le; assumption.
  - rewrite <- (Qceiling_Z lo), <- (Qceiling_Z hi). split; apply Qceiling_resp_le; assumption.
Qed.

Lemma Qtrunc_comp (x y : Q) : (x == y)%Q -> Qtrunc x = Qtrunc y.
Proof.
  intros E. unfold Qtrunc.
  replace (Qle_bool 0 y) with (Qle_bool 0 x).
  - destruct (Qle_bool 0 x); [apply Qfloor_comp | apply Qceiling_comp]; exact E.
  - destruct (Qle_bool 0 x) eqn:Ex; destruct (Qle_bool 0 y) eqn:Ey; try reflexivity;
      [ apply Qle_bool_iff in Ex; rewrite E in Ex; apply Qle_bool_iff in Ex
      | apply Qle_bool_iff in Ey; rewrite <- E in Ey; apply Qle_bool_iff in Ey ];
      congruence.
Qed.

Lemma ToInt32_small (y : Q) :
  - 2 ^ 31 <= Qtrunc y < 2 ^ 31 -> ToInt32 (Fin y) = Qtrunc y.
Proof. intros H. unfold ToInt32. rewrite Z.mod_small by lia. lia. Qed.

(** Clamping a finite sample leaves a finite value between -1 and 1. *)
Lemma clamp_sample_Fin (q : Q) :
  exists c, clamp_sample (Fin q) = Fin c /\ (-1 <= c)%Q /\ (c <= 1)%Q.
Proof.
  unfold clamp_sample, Math_min, Math_max, of_Z. cbn [num_ltb].
  destruct (Qltb q (inject_Z 1)) eqn:E1; cbn [num_ltb].
  - apply Qltb_true in E1.
    destruct (Qltb (inject_Z (-1)) q) eqn:E2.
    + apply Qltb_true in E2. exists q. repeat split; try reflexivity.
      * apply Qlt_le_weak, E2.
      * apply Qlt_le_weak, E1.
    + exists (inject_Z (-1)). repeat split; discriminate.
  - destruct (Qltb (inject_Z (-1)) (inject_Z 1)) eqn:E2.
    + exists (inject_Z 1). repeat split; discriminate.
    + discriminate.
Qed.

Lemma roundQ_neg_inv (x : Q) : (roundQ x < 0)%Q -> (x < 0)%Q.
Proof.
  intros H. apply Qnot_le_lt. intros Hx.
  pose proof (roundQ_mono _ _ Hx) as Hm.
  change 0%Q with (inject_Z 0) in Hm. rewrite roundQ_Z in Hm by lia.
  apply (Qlt_not_le _ _ H). exact Hm.
Qed.

(** Scaling a clamped finite sample gives a finite value whose integer part
    fits in sixteen bits. *)
Lemma scale_sample_bounded (c : Q) :
  (-1 <= c)%Q -> (c <= 1)%Q ->
  exists y, scale_sample (Fin c) = Fin y /\
            (inject_Z (-32768) <= y)%Q /\ (y <= inject_Z 32767)%Q.
Proof.
  intros H1 H2. unfold scale_sample, of_Z. cbn [num_add num_mul].
  destruct (round64_bounded (-1) 2 ((1 # 2) + c)) as (s & Es & Hs & _);
    [lia | lia | unfold inject_Z; lra | unfold inject_Z; lra | ].
  rewrite Es. cbn [num_ltb].
  destruct (Qltb s (inject_Z 0)) eqn:E.
  - apply Qltb_true in E. rewrite Hs in E. apply roundQ_neg_inv in E.
    destruct (round64_bounded (-32768) 0 (c * inject_Z 32768)) as (y & Ey & _ & Hy1 & Hy2);
      [lia | lia | unfold inject_Z; lra | unfold inject_Z; lra | ].
    exists y. split; [exact Ey | ]. split; [exact Hy1 | ].
    eapply Qle_trans; [exact Hy2 | discriminate].
  - destruct (round64_bounded (-32767) 32767 (c * inject_Z 32767)) as (y & Ey & _ & Hy1 & Hy2);
      [lia | lia | unfold inject_Z; lra | unfold inject_Z; lra | ].
    exists y. split; [exact Ey | ]. split; [ | exact Hy2].
    eapply Qle_trans; [ | exact Hy1]. discriminate.
Qed.

Lemma quantize_Fin (q : Q) :
  exists y, scale_sample (clamp_sample (Fin q)) = Fin y /\
            quantize (Fin q) = Qtrunc y /\ -32768 <= Qtrunc y <= 32767.
Proof.
  destruct (clamp_sample_Fin q) as (c & Ec & Hc1 & Hc2).
  destruct (scale_sample_bounded c Hc1 Hc2) as (y & Ey & Hy1 & Hy2).
  pose proof (Qtrunc_bounds _ _ _ Hy1 Hy2) as Ht.
  exists y. unfold quantize. rewrite Ec, Ey.
  split; [reflexivity | ]. split; [ | exact Ht].
  apply ToInt32_small. lia.
Qed.

Lemma quantize_range (x : number) : -32768 <= quantize x <= 32767.
Proof.
  destruct x as [ | [ | ] | q].
  - vm_compute. split; discriminate.
  - vm_compute. split; discriminate.
  - vm_compute. split; discriminate.
  - destruct (quantize_Fin q) as (y & _ & E & H). rewrite E. exact H.
Qed.

Lemma le_bytes_mod (n : nat) (v : Z) :
  le_bytes n (v mod 256 ^ Z.of_nat n) = le_bytes n v.
Proof.
  revert v. induction n as [ | n IH]; intros v; [reflexivity | ].
  cbn [le_bytes]. rewrite Nat2Z.inj_succ, Z.pow_succ_r by lia.
  assert (H256 : 0 < 256 ^ Z.of_nat n) by (apply Z.pow_pos_nonneg; lia).
  rewrite Z.rem_mul_r by lia.
  pose proof (Z.mod_pos_bound v 256 ltac:(lia)) as Hb.
  set (r := (v / 256) mod 256 ^ Z.of_nat n).
  replace (v mod 256 + 256 * r) with (v mod 256 + r * 256) by ring.
  rewrite Z.mod_add, Z.div_add by lia.
  rewrite Z.mod_mod, (Z.div_small (v mod 256)) by lia.
  cbn [Z.add]. unfold r. rewrite IH. reflexivity.
Qed.

Lemma getInt16_int16 (z : Z) :
  -32768 <= z <= 32767 -> getInt16 (le_bytes 2 (z mod 2 ^ 16)) 0 = z.
Proof.
  intros H. unfold getInt16, getUint.
  change (slice 0 (0 + 2) (le_bytes 2 (z mod 2 ^ 16))) with (le_bytes 2 (z mod 2 ^ 16)).
  rewrite le_value_le_bytes. change (256 ^ Z.of_nat 2) with (2 ^ 16).
  rewrite Z.mod_mod by lia.
  destruct (Z_lt_le_dec z 0) as [Hn | Hp].
  - replace (z mod 2 ^ 16) with (z + 2 ^ 16)
      by (apply Z.mod_unique with (-1); [left; lia | lia]).
    destruct (Z.ltb_spec (z + 2 ^ 16) (2 ^ 15)); lia.
  - rewrite Z.mod_small by lia.
    destruct (Z.ltb_spec z (2 ^ 15)); lia.
Qed.

End Quantize.

(** * The data section *)

Section Data.

Lemma interleave_seq_length (channels : list (list number)) (o m : nat) :
  List.length (flat_map (frame channels) (seq o m)) = (m * List.length channels)%nat.
Proof.
  revert o. induction m as [ | m IH]; intros o; [reflexivity | ].
  cbn [seq flat_map]. rewrite length_app, frame_length, IH. lia.
Qed.

Lemma nth_frame (channels : list (list number)) (f c : nat) :
  nth c (frame channels f) NaN = nth f (nth c channels []) NaN.
Proof.
  unfold frame.
  destruct (Nat.lt_ge_cases c (List.length channels)) as [H | H].
  - rewrite (nth_indep _ NaN (nth f [] NaN)) by (rewrite length_map; exact H).
    apply (map_nth (fun ch => nth f ch NaN)).
  - rewrite (nth_overflow (map _ channels)) by (rewrite length_map; exact H).
    rewrite (nth_overflow channels) by exact H.
    destruct f; reflexivity.
Qed.

Lemma nth_interleave_seq (channels : list (list number)) (o m f c : nat) :
  (f < m)%nat -> (c < List.length channels)%nat ->
  nth (f * List.length channels + c) (flat_map (frame channels) (seq o m)) NaN
  = nth (o + f) (nth c channels []) NaN.
Proof.
  revert o f. induction m as [ | m IH]; intros o f Hf Hc; [lia | ].
  cbn [seq flat_map]. destruct f as [ | f].
  - rewrite app_nth1 by (rewrite frame_length; lia).
    cbn [Nat.mul Nat.add]. rewrite Nat.add_0_r. apply nth_frame.
  - rewrite app_nth2 by (rewrite frame_length; lia).
    rewrite frame_length.
    replace (S f * List.length channels + c - List.length channels)%nat
      with (f * List.length channels + c)%nat by lia.
    rewrite IH by lia. f_equal. lia.
Qed.

(** Sample [f] of channel [c] is at index [f * channels + c]. *)
Lemma nth_interleave (channels : list (list number)) (frames f c : nat) :
  (f < frames)%nat -> (c < List.length channels)%nat ->
  nth (f * List.length channels + c) (interleave channels frames) NaN
  = nth f (nth c channels []) NaN.
Proof. intros Hf Hc. unfold interleave. apply nth_interleave_seq; assumption. Qed.

Lemma getInt16_data (pre : list byte) (xs : list number) (k : nat) :
  (k < List.length xs)%nat ->
  getInt16 (pre ++ flat_map int16_bytes xs)
           (Z.of_nat (List.length pre) + 2 * Z.of_nat k)
  = quantize (nth k xs NaN).
Proof.
  intros Hk.
  assert (Ex : xs = firstn k xs ++ nth k xs NaN :: skipn (S k) xs).
  { rewrite <- (firstn_skipn k xs) at 1. f_equal.
    apply skipn_nth_error. apply nth_error_nth'. exact Hk. }
  set (x := nth k xs NaN) in *.
  rewrite Ex at 1. rewrite flat_map_app. cbn [flat_map].
  set (p := pre ++ flat_map int16_bytes (firstn k xs)).
  assert (Hp : Z.of_nat (List.length p) = Z.of_nat (List.length pre) + 2 * Z.of_nat k).
  { unfold p. rewrite length_app, int16_bytes_length, length_firstn. lia. }
  rewrite app_assoc. fold p. rewrite <- Hp.
  unfold getInt16, getUint.
  replace (Z.of_nat (List.length p) + 2)
    with (Z.of_nat (List.length p) + Z.of_nat (List.length (int16_bytes x)))
    by reflexivity.
  rewrite !slice_app_mid.
  pose proof (getInt16_int16 (quantize x) (quantize_range x)) as H.
  unfold getInt16, getUint in H.
  change (slice 0 (0 + 2) (le_bytes 2 (quantize x mod 2 ^ 16)))
    with (int16_bytes x) in H.
  exact H.
Qed.

Lemma wav_bytes_length (b : AudioBuffer.t) :
  AudioBuffer.valid b -> Z.of_nat (List.length (wav_bytes b)) = wav_length b.
Proof.
  intros (_ & _ & Hl & Hn & _). unfold wav_bytes, data_bytes, interleave.
  rewrite length_app, header_bytes_length, int16_bytes_length, interleave_seq_length.
  unfold wav_length. rewrite <- Hn. nia.
Qed.

End Data.

(** * Properties of the encoder *)

(** C10: for every finite sample, clamping, scaling and truncating give an
    integer between -32768 and 32767: the conversion to a 32-bit integer does
    not wrap, and the 16-bit word that is stored reads back as that integer. *)
Theorem quantize_fits_int16 (q : Q) :
  exists y : Q,
    scale_sample (clamp_sample (Fin q)) = Fin y /\
    -32768 <= Qtrunc y <= 32767 /\
    quantize (Fin q) = Qtrunc y /\
    getInt16 (le_bytes 2 (quantize (Fin q) mod 2 ^ 16)) 0 = Qtrunc y.
Proof.
  destruct (quantize_Fin q) as (y & Ey & Eq & Hy).
  exists y. repeat split; try assumption; try lia.
  rewrite Eq. apply getInt16_int16. exact Hy.
Qed.

(** C1: the encoder picks the factor 32768 when [0.5 + s < 0], not when
    [s < 0]: the sample -0.25 is scaled by 32767 and stored as -8191, where
    truncating -0.25 * 32768 gives -8192. *)
Theorem quantize_branch_at_minus_half :
  quantize (Fin (-1 # 4)) = -8191 /\
  Qtrunc ((-1 # 4) * 32768) = -8192 /\
  scale_sample (clamp_sample (Fin (-1 # 4))) = num_mul (Fin (-1 # 4)) (of_Z 32767).
Proof. vm_compute. repeat split. Qed.

Ltac prove_valid :=
  unfold AudioBuffer.valid; cbn;
  repeat match goal with
         | |- _ /\ _ => split
         | |- Forall _ _ => constructor
         end; try reflexivity; try lia.

Ltac eval_to_nat :=
  repeat match goal with
         | |- context [Z.to_nat ?z] =>
             let n := eval vm_compute in (Z.to_nat z) in
             change (Z.to_nat z) with n
         end.

(** The encoded value of sample [f] of channel [c]. *)
Lemma audioBufferToWav_sample (b : AudioBuffer.t) (f c : nat) :
  AudioBuffer.valid b ->
  Z.of_nat f < AudioBuffer.length b ->
  Z.of_nat c < AudioBuffer.numberOfChannels b ->
  getInt16 (wav_bytes b)
    (44 + 2 * (Z.of_nat f * AudioBuffer.numberOfChannels b + Z.of_nat c))
  = quantize (nth f (nth c (AudioBuffer.channelData b) []) NaN).
Proof.
  intros Hv Hf Hc. destruct Hv as (_ & _ & Hl & Hn & _).
  unfold wav_bytes, data_bytes.
  set (hd := header_bytes _ _ _).
  set (cd := AudioBuffer.channelData b) in *.
  set (frames := Z.to_nat (AudioBuffer.length b)).
  rewrite <- (nth_interleave cd frames f c) by (unfold frames; lia).
  replace (44 + 2 * (Z.of_nat f * AudioBuffer.numberOfChannels b + Z.of_nat c))
    with (Z.of_nat (List.length hd) + 2 * Z.of_nat (f * List.length cd + c))
    by (change (List.length hd) with 44%nat; lia).
  apply getInt16_data.
  unfold interleave. rewrite interleave_seq_length. unfold frames. nia.
Qed.

(** C7: on every valid buffer the encoder returns: with one unit of fuel per
    frame the loop ends with the cursor at the end of a buffer of the
    announced length, nothing is thrown, and no channel is read past its
    end. *)
Theorem audioBufferToWav_total (b : AudioBuffer.t) :
  AudioBuffer.valid b ->
  (forall fuel : nat,
      (Z.to_nat (AudioBuffer.length b) <= fuel)%nat ->
      exists st,
        encode fuel b = Some (Ok st) /\
        pos st = wav_length b /\
        Z.of_nat (List.length (view st)) = wav_length b /\
        in_bounds st = true) /\
  exists out,
    audioBufferToWav b = Some (Ok out) /\
    Z.of_nat (List.length out) = wav_length b.
Proof.
  intros Hv. split.
  - intros fuel Hf. eexists. split; [apply (encode_spec b Hv fuel Hf) | ].
    cbn [pos view in_bounds]. repeat split. apply wav_bytes_length, Hv.
  - exists (wav_bytes b). split; [apply audioBufferToWav_spec, Hv | ].
    apply wav_bytes_length, Hv.
Qed.

Lemma audioBufferToWav_total_witness :
  AudioBuffer.valid (stereo_example 44100) /\
  exists out,
    audioBufferToWav (stereo_example 44100) = Some (Ok out) /\
    Z.of_nat (List.length out) = wav_length (stereo_example 44100).
Proof.
  assert (Hv : AudioBuffer.valid (stereo_example 44100)) by prove_valid.
  split; [exact Hv | exact (proj2 (audioBufferToWav_total _ Hv))].
Defined.

(** C2: the output of a valid buffer has [44 + frameCount * channelCount * 2]
    bytes and its header holds, at the offsets of the table, the four tags and
    the little-endian encodings of the stated values. *)
Theorem wav_header_layout (b : AudioBuffer.t) :
  AudioBuffer.valid b ->
  let frameCount := AudioBuffer.length b in
  let channelCount := AudioBuffer.numberOfChannels b in
  let sampleRate := AudioBuffer.sampleRate b in
  let totalLength := 44 + frameCount * channelCount * 2 in
  exists out,
    audioBufferToWav b = Some (Ok out) /\
    Z.of_nat (List.length out) = totalLength /\
    slice 0 4 out = ascii_bytes "RIFF" /\
    slice 4 8 out = le_bytes 4 (totalLength - 8) /\
    slice 8 12 out = ascii_bytes "WAVE" /\
    slice 12 16 out = ascii_bytes "fmt " /\
    slice 16 20 out = le_bytes 4 16 /\
    slice 20 22 out = le_bytes 2 1 /\
    slice 22 24 out = le_bytes 2 channelCount /\
    slice 24 28 out = le_bytes 4 sampleRate /\
    slice 28 32 out = le_bytes 4 (sampleRate * channelCount * 2) /\
    slice 32 34 out = le_bytes 2 (channelCount * 2) /\
    slice 34 36 out = le_bytes 2 16 /\
    slice 36 40 out = ascii_bytes "data" /\
    slice 40 44 out = le_bytes 4 (frameCount * channelCount * 2).
Proof.
  intros Hv frameCount channelCount sampleRate totalLength.
  exists (wav_bytes b). split; [apply audioBufferToWav_spec, Hv | ].
  split; [rewrite (wav_bytes_length b Hv); unfold wav_length, totalLength; lia | ].
  unfold wav_bytes, header_bytes.
  fold frameCount channelCount sampleRate.
  replace (wav_length b) with totalLength by (unfold wav_length, totalLength; lia).
  set (data := data_bytes _ _).
  change (2 ^ 32) with (256 ^ Z.of_nat 4). change (2 ^ 16) with (256 ^ Z.of_nat 2).
  rewrite !le_bytes_mod.
  replace (totalLength - 40 - 4) with (frameCount * channelCount * 2)
    by (unfold totalLength; lia).
  replace (sampleRate * 2 * channelCount) with (sampleRate * channelCount * 2) by ring.
  unfold slice. eval_to_nat. cbn [le_bytes app firstn skipn].
  repeat split.
Qed.

Lemma wav_header_layout_witness :
  AudioBuffer.valid (stereo_example 44100) /\
  exists out,
    audioBufferToWav (stereo_example 44100) = Some (Ok out) /\
    Z.of_nat (List.length out) = 52 /\
    slice 22 24 out = le_bytes 2 2 /\
    slice 24 28 out = le_bytes 4 44100.
Proof.
  assert (Hv : AudioBuffer.valid (stereo_example 44100)) by prove_valid.
  split; [exact Hv | ].
  destruct (wav_header_layout _ Hv)
    as (out & E & Hlen & _ & _ & _ & _ & _ & _ & Hc & Hr & _).
  exists out. repeat split; assumption.
Defined.

(** C5: the data section of the output of a valid buffer is the sequence of
    16-bit samples frame after frame, and within a frame channel after
    channel: sample [f] of channel [c] is the word at byte offset
    [44 + 2 * (f * channelCount + c)].  For the two-channel example the four
    words are those of frame 0 channel 0, frame 0 channel 1, frame 1
    channel 0 and frame 1 channel 1. *)
Theorem wav_data_interleaved :
  (forall b : AudioBuffer.t,
      AudioBuffer.valid b ->
      exists out,
        audioBufferToWav b = Some (Ok out) /\
        skipn 44 out
        = flat_map int16_bytes
            (interleave (AudioBuffer.channelData b) (Z.to_nat (AudioBuffer.length b))) /\
        forall f c : nat,
          Z.of_nat f < AudioBuffer.length b ->
          Z.of_nat c < AudioBuffer.numberOfChannels b ->
          getInt16 out (44 + 2 * (Z.of_nat f * AudioBuffer.numberOfChannels b + Z.of_nat c))
          = quantize (nth f (nth c (AudioBuffer.channelData b) []) NaN)) /\
  (forall rate : Z,
      0 < rate ->
      exists out,
        audioBufferToWav (stereo_example rate) = Some (Ok out) /\
        skipn 44 out
        = int16_bytes (Fin 0) ++ int16_bytes (Fin (-1 # 2)) ++
          int16_bytes (Fin (1 # 2)) ++ int16_bytes (Fin (1 # 4)) /\
        map (getInt16 out) [44; 46; 48; 50] = [0; -16383; 16383; 8191]).
Proof.
  split.
  - intros b Hv. exists (wav_bytes b).
    split; [apply audioBufferToWav_spec, Hv | ]. split.
    + unfold wav_bytes, data_bytes.
      apply (skipn_length_app0 (header_bytes _ _ _)).
    + intros f c Hf Hc. apply audioBufferToWav_sample; assumption.
  - intros rate Hr.
    assert (Hv : AudioBuffer.valid (stereo_example rate)) by prove_valid.
    exists (wav_bytes (stereo_example rate)).
    split; [apply audioBufferToWav_spec, Hv | ]. split.
    + unfold wav_bytes, data_bytes.
      rewrite (skipn_length_app0 (header_bytes _ _ _)).
      unfold data_bytes, interleave. cbn [stereo_example AudioBuffer.channelData
        AudioBuffer.length Z.to_nat Pos.to_nat Pos.iter_op Nat.add seq flat_map
        frame map nth app].
      reflexivity.
    + pose proof (audioBufferToWav_sample _ 0 0 Hv eq_refl eq_refl) as H00.
      pose proof (audioBufferToWav_sample _ 0 1 Hv eq_refl eq_refl) as H01.
      pose proof (audioBufferToWav_sample _ 1 0 Hv eq_refl eq_refl) as H10.
      pose proof (audioBufferToWav_sample _ 1 1 Hv eq_refl eq_refl) as H11.
      change (getInt16 (wav_bytes (stereo_example rate)) 44 = quantize (Fin 0)) in H00.
      change (getInt16 (wav_bytes (stereo_example rate)) 46 = quantize (Fin (-1 # 2))) in H01.
      change (getInt16 (wav_bytes (stereo_example rate)) 48 = quantize (Fin (1 # 2))) in H10.
      change (getInt16 (wav_bytes (stereo_example rate)) 50 = quantize (Fin (1 # 4))) in H11.
      cbn [map]. rewrite H00, H01, H10, H11.
      vm_compute. reflexivity.
Qed.

Lemma wav_data_interleaved_witness :
  AudioBuffer.valid (stereo_example 8000) /\ 0 < 8000 /\
  exists out,
    audioBufferToWav (stereo_example 8000) = Some (Ok out) /\
    map (getInt16 out) [44; 46; 48; 50] = [0; -16383; 16383; 8191].
Proof.
  assert (Hv : AudioBuffer.valid (stereo_example 8000)) by prove_valid.
  assert (Hr : 0 < 8000) by reflexivity.
  split; [exact Hv | ]. split; [exact Hr | ].
  destruct (proj1 wav_data_interleaved _ Hv) as (out & E & _ & _).
  destruct (proj2 wav_data_interleaved 8000 Hr) as (out' & E' & _ & Hs).
  exists out'. split; assumption.
Defined.

(** C6: a one-sample mono buffer holding 1.0 encodes to the word 32767, one
    holding -1.0 to -32768, and one holding 1.5 to the same word as 1.0. *)
Theorem amplitude_extremes (rate : Z) :
  0 < rate ->
  exists o1 o2 o3,
    audioBufferToWav (mono_sample rate (Fin 1)) = Some (Ok o1) /\
    getInt16 o1 44 = 32767 /\
    audioBufferToWav (mono_sample rate (Fin (-1))) = Some (Ok o2) /\
    getInt16 o2 44 = -32768 /\
    audioBufferToWav (mono_sample rate (Fin (3 # 2))) = Some (Ok o3) /\
    getInt16 o3 44 = getInt16 o1 44 /\
    skipn 44 o3 = skipn 44 o1 /\
    clamp_sample (Fin (3 # 2)) = of_Z 1.
Proof.
  intros Hr.
  assert (Hv : forall x, AudioBuffer.valid (mono_sample rate x)) by (intros x; prove_valid).
  assert (Hs : forall x, getInt16 (wav_bytes (mono_sample rate x)) 44 = quantize x).
  { intros x. apply (audioBufferToWav_sample _ 0 0 (Hv x)); reflexivity. }
  exists (wav_bytes (mono_sample rate (Fin 1))),
         (wav_bytes (mono_sample rate (Fin (-1)))),
         (wav_bytes (mono_sample rate (Fin (3 # 2)))).
  rewrite !audioBufferToWav_spec by apply Hv. rewrite !Hs.
  assert (E1 : quantize (Fin 1) = 32767) by (vm_compute; reflexivity).
  assert (E2 : quantize (Fin (-1)) = -32768) by (vm_compute; reflexivity).
  assert (E3 : quantize (Fin (3 # 2)) = 32767) by (vm_compute; reflexivity).
  assert (E4 : clamp_sample (Fin (3 # 2)) = of_Z 1) by (vm_compute; reflexivity).
  rewrite E1, E2, E3.
  do 6 (split; [reflexivity | ]). split; [ | exact E4].
  unfold wav_bytes. rewrite !(skipn_length_app0 (header_bytes _ _ _)).
  unfold data_bytes, interleave. cbn [mono_sample AudioBuffer.channelData
    AudioBuffer.length Z.to_nat Pos.to_nat Pos.iter_op Nat.add seq flat_map
    frame map nth app].
  change (int16_bytes (Fin (3 # 2)) ++ [] = int16_bytes (Fin 1) ++ []).
  unfold int16_bytes. rewrite E1, E3. reflexivity.
Qed.

Lemma amplitude_extremes_witness :
  0 < 44100 /\
  exists o1,
    audioBufferToWav (mono_sample 44100 (Fin 1)) = Some (Ok o1) /\
    getInt16 o1 44 = 32767.
Proof.
  assert (Hr : 0 < 44100) by reflexivity.
  split; [exact Hr | ].
  destruct (amplitude_extremes 44100 Hr) as (o1 & _ & _ & E & H & _).
  exists o1. split; assumption.
Defined.

(** * Sample indices of the trimmer *)

Section Indices.

Local Open Scope Q_scope.

Lemma Qtrunc_Z (n : Z) : Qtrunc (inject_Z n) = n.
Proof. unfold Qtrunc. destruct (Qle_bool 0 (inject_Z n)); [apply Qfloor_Z | apply Qceiling_Z]. Qed.

Lemma eps_value : pow2 (-53) == 1 # 9007199254740992.
Proof. vm_compute. reflexivity. Qed.

Lemma roundQ_zero (x : Q) : x == 0 -> roundQ x == 0.
Proof.
  intros E. apply Qle_antisym.
  - assert (H : roundQ x <= roundQ (inject_Z 0))
      by (apply roundQ_mono; rewrite E; apply Qle_refl).
    rewrite roundQ_Z in H by lia. exact H.
  - assert (H : roundQ (inject_Z 0) <= roundQ x)
      by (apply roundQ_mono; rewrite E; apply Qle_refl).
    rewrite roundQ_Z in H by lia. exact H.
Qed.

Lemma roundQ_err (x : Q) :
  pow2 (-1022) <= x ->
  x * (1 - pow2 (-53)) <= roundQ x /\ roundQ x <= x * (1 + pow2 (-53)).
Proof.
  intros H. pose proof (pow2_pos (-1022)).
  rewrite roundQ_nonneg by lra. apply round_pos_err, H.
Qed.

Lemma small_normal (x : Q) : 1 # 4294967296 <= x -> pow2 (-1022) <= x.
Proof.
  intros H. apply Qle_trans with (pow2 (-32)); [apply pow2_le; lia | ].
  assert (E : pow2 (-32) == 1 # 4294967296) by (vm_compute; reflexivity).
  rewrite E. exact H.
Qed.

Variables L r : Z.
Hypothesis L_range : (0 <= L < 2 ^ 32)%Z.
Hypothesis r_range : (0 < r < 2 ^ 32)%Z.

Lemma Qr_pos : 1 <= inject_Z r.
Proof. apply (inject_Z_le 1 r). lia. Qed.

Lemma Qr_lt : inject_Z r < 4294967296.
Proof. apply (inject_Z_lt r 4294967296). lia. Qed.

Lemma QL_lt : inject_Z L < 4294967296.
Proof. apply (inject_Z_lt L 4294967296). lia. Qed.

Lemma QL_nonneg : 0 <= inject_Z L.
Proof. apply (inject_Z_le 0 L). lia. Qed.

(** The duration [L / r], rounded, times the rate, rounded again, stays
    within one sample of [L]. *)
Lemma duration_times_rate :
  let d := roundQ (inject_Z L / inject_Z r) in
  0 <= d /\
  inject_Z L - 1 < roundQ (d * inject_Z r) /\
  roundQ (d * inject_Z r) < inject_Z L + 1.
Proof.
  intros d. pose proof Qr_pos as Hr. pose proof Qr_lt as Hr2.
  pose proof QL_lt as HL2. pose proof QL_nonneg as HL0. pose proof eps_value as He.
  destruct (Z.eq_dec L 0) as [E0 | Hn0].
  - assert (Ed : d == 0).
    { unfold d. apply roundQ_zero. rewrite E0. field. lra. }
    assert (Edr : roundQ (d * inject_Z r) == 0)
      by (apply roundQ_zero; rewrite Ed; ring).
    rewrite Edr, E0. change (inject_Z 0) with 0. repeat split; lra.
  - assert (HL1 : 1 <= inject_Z L) by (apply (inject_Z_le 1 L); lia).
    set (q := inject_Z L / inject_Z r) in *.
    assert (Eq : q * inject_Z r == inject_Z L) by (unfold q; field; lra).
    assert (Hq : 1 # 4294967296 <= q).
    { unfold q. apply Qle_shift_div_l; [lra | ]. lra. }
    destruct (roundQ_err q (small_normal q Hq)) as [Hd1 Hd2]. fold d in Hd1, Hd2.
    set (e := pow2 (-53)) in *.
    assert (Hdr1 : (q * (1 - e)) * inject_Z r <= d * inject_Z r)
      by (apply Qmult_le_compat_r; lra).
    assert (Hdr2 : d * inject_Z r <= (q * (1 + e)) * inject_Z r)
      by (apply Qmult_le_compat_r; lra).
    assert (E1 : q * (1 - e) * inject_Z r == inject_Z L * (1 - e))
      by (rewrite <- Eq; ring).
    assert (E2 : q * (1 + e) * inject_Z r == inject_Z L * (1 + e))
      by (rewrite <- Eq; ring).
    rewrite E1 in Hdr1. rewrite E2 in Hdr2.
    set (t := d * inject_Z r) in *.
    assert (HLe : inject_Z L * e <= 1 # 2097152).
    { rewrite He. apply Qle_trans with (4294967296 * (1 # 9007199254740992)).
      - apply Qmult_le_compat_r; [lra | discriminate].
      - discriminate. }
    assert (HLe0 : 0 <= inject_Z L * e).
    { apply Qmult_le_0_compat; [lra | rewrite He; discriminate]. }
    assert (Ht : pow2 (-1022) <= t).
    { apply small_normal. lra. }
    destruct (roundQ_err t Ht) as [Ht1 Ht2]. fold e in Ht1, Ht2.
    assert (Hte : t * e <= (1 # 2097152) + (1 # 2097152)).
    { apply Qle_trans with ((inject_Z L * (1 + e)) * e).
      - apply Qmult_le_compat_r; [exact Hdr2 | rewrite He; discriminate].
      - assert (Hee : inject_Z L * e * e <= inject_Z L * e * 1).
        { apply Qmult_le_l.
          - apply Qlt_le_trans with (1 * e); [rewrite He; reflexivity | ].
            apply Qmult_le_compat_r; [exact HL1 | rewrite He; discriminate].
          - rewrite He. discriminate. }
        lra. }
    assert (Hte0 : 0 <= t * e).
    { apply Qmult_le_0_compat; [lra | rewrite He; discriminate]. }
    split; [ | split].
    + apply Qle_trans with (q * (1 - e)); [ | exact Hd1].
      apply Qmult_le_0_compat; [lra | rewrite He; discriminate].
    + lra.
    + lra.
Qed.

End Indices.

Section Extract.

Lemma round64_finite (lo hi : Z) (x : Q) :
  (- 2 ^ 53 < lo)%Z -> (hi < 2 ^ 53)%Z ->
  (inject_Z lo <= roundQ x)%Q -> (roundQ x <= inject_Z hi)%Q ->
  exists y, round64 x = Fin y /\ (y == roundQ x)%Q.
Proof.
  intros Hlo Hhi H1 H2.
  assert (Hbig : (inject_Z (2 ^ 53) <= pow2 1024)%Q).
  { rewrite <- pow2_Z by lia. apply pow2_le. lia. }
  pose proof (inject_Z_lt _ _ Hhi) as Hh. pose proof (inject_Z_lt _ _ Hlo) as Hl.
  rewrite inject_Z_opp in Hl.
  exists (Qred (roundQ x)). unfold round64.
  destruct (Qle_bool (pow2 1024) (roundQ x)) eqn:E1.
  { apply Qle_bool_iff in E1. exfalso. lra. }
  destruct (Qle_bool (roundQ x) (- pow2 1024)) eqn:E2.
  { apply Qle_bool_iff in E2. exfalso. lra. }
  split; [reflexivity | apply Qred_correct].
Qed.

Variable b : AudioBuffer.t.
Hypothesis b_valid : AudioBuffer.valid b.
Hypothesis length_range : AudioBuffer.length b < 2 ^ 32.
Hypothesis rate_range : AudioBuffer.sampleRate b < 2 ^ 32.

Lemma b_length : 0 <= AudioBuffer.length b < 2 ^ 32.
Proof. destruct b_valid as (_ & _ & H & _). lia. Qed.

Lemma b_rate : 0 < AudioBuffer.sampleRate b < 2 ^ 32.
Proof. destruct b_valid as (H & _). lia. Qed.

Lemma duration_Fin :
  exists d,
    AudioBuffer.duration b = Fin d /\
    (d == roundQ (inject_Z (AudioBuffer.length b) / inject_Z (AudioBuffer.sampleRate b)))%Q.
Proof.
  pose proof b_length as HL. pose proof b_rate as Hr.
  pose proof (Qr_pos _ Hr) as Hr1. pose proof (QL_nonneg _ HL) as HL0.
  unfold AudioBuffer.duration, num_div, of_Z.
  destruct (Qeq_bool (inject_Z (AudioBuffer.sampleRate b)) 0) eqn:E.
  { apply Qeq_bool_iff in E. exfalso. lra. }
  set (q := (inject_Z (AudioBuffer.length b) / inject_Z (AudioBuffer.sampleRate b))%Q).
  assert (Hq0 : (0 <= q)%Q).
  { unfold q. apply Qle_shift_div_l; [lra | lra]. }
  assert (Hq1 : (q <= inject_Z (AudioBuffer.length b))%Q).
  { unfold q. apply Qle_shift_div_r; [lra | ].
    pose proof (Qmult_le_compat_nonneg (inject_Z (AudioBuffer.length b))
                  (inject_Z (AudioBuffer.length b)) 1
                  (inject_Z (AudioBuffer.sampleRate b))
                  ltac:(split; lra) ltac:(split; lra)) as Hm.
    lra. }
  destruct (round64_bounded 0 (AudioBuffer.length b) q) as (d & Ed & Hd & _);
    [lia | lia | exact Hq0 | exact Hq1 | ].
  exists d. split; assumption.
Qed.

Lemma index_of_range (x d : Q) :
  AudioBuffer.duration b = Fin d -> (0 <= x)%Q -> (x <= d)%Q ->
  Math_floor (num_mul (Fin x) (of_Z (AudioBuffer.sampleRate b))) = of_Z (index_of b x) /\
  0 <= index_of b x <= AudioBuffer.length b.
Proof.
  intros Ed Hx0 Hxd.
  pose proof b_length as HL. pose proof b_rate as Hr.
  pose proof (Qr_pos _ Hr) as Hr1.
  destruct duration_Fin as (d' & Ed' & Hd').
  rewrite Ed in Ed'. injection Ed' as <-.
  destruct (duration_times_rate _ _ HL Hr) as (_ & _ & Hhi). cbv zeta in Hhi.
  set (R := inject_Z (AudioBuffer.sampleRate b)) in *.
  assert (Hlo : (inject_Z 0 <= roundQ (x * R))%Q).
  { rewrite <- (roundQ_Z 0) by lia. apply roundQ_mono.
    change (inject_Z 0) with 0%Q. apply Qmult_le_0_compat; lra. }
  assert (Hup : (roundQ (x * R) < inject_Z (AudioBuffer.length b) + 1)%Q).
  { eapply Qle_lt_trans; [ | exact Hhi].
    apply roundQ_mono. apply Qmult_le_compat_r; [ | lra].
    rewrite <- Hd'. exact Hxd. }
  destruct (round64_finite 0 (AudioBuffer.length b + 1) (x * R)) as (y & Ey & Hy);
    [lia | lia | exact Hlo | rewrite inject_Z_plus; change (inject_Z 1) with 1%Q; lra | ].
  unfold num_mul, of_Z. fold R. rewrite Ey. cbn [Math_floor].
  unfold index_of. fold R. rewrite (Qfloor_comp _ _ Hy). split; [reflexivity | ].
  split.
  - rewrite <- (Qfloor_Z 0). apply Qfloor_resp_le. exact Hlo.
  - assert (H : (Qfloor (roundQ (x * R)) < AudioBuffer.length b + 1)%Z).
    { rewrite Zlt_Qlt. eapply Qle_lt_trans; [apply Qfloor_le | ].
      rewrite inject_Z_plus. exact Hup. }
    lia.
Qed.

Lemma index_of_mono (x y : Q) : (0 <= x)%Q -> (x <= y)%Q -> index_of b x <= index_of b y.
Proof.
  intros Hx Hxy. pose proof (Qr_pos _ b_rate) as Hr1. unfold index_of.
  apply Qfloor_resp_le, roundQ_mono. apply Qmult_le_compat_r; [exact Hxy | lra].
Qed.

Lemma roundQ_comp (x y : Q) : (x == y)%Q -> (roundQ x == roundQ y)%Q.
Proof.
  intros E. apply Qle_antisym; apply roundQ_mono; rewrite E; apply Qle_refl.
Qed.

Lemma ToUint32_sub (i j : Z) :
  0 <= i -> i <= j -> j < 2 ^ 32 ->
  ToUint32 (num_sub (of_Z j) (of_Z i)) = j - i.
Proof.
  intros Hi Hij Hj. unfold num_sub, num_neg, of_Z, num_add.
  assert (E : (roundQ (inject_Z j + - inject_Z i) == inject_Z (j - i))%Q).
  { rewrite <- (roundQ_Z (j - i)) by lia. apply roundQ_comp.
    unfold Z.sub. rewrite inject_Z_plus, inject_Z_opp. reflexivity. }
  destruct (round64_finite (j - i) (j - i) (inject_Z j + - inject_Z i)%Q) as (y & Ey & Hy);
    [lia | lia | rewrite E; apply Qle_refl | rewrite E; apply Qle_refl | ].
  rewrite Ey. unfold ToUint32.
  rewrite (Qtrunc_comp _ _ (Qeq_trans _ _ _ Hy E)), Qtrunc_Z.
  apply Z.mod_small. lia.
Qed.

Lemma relative_index_of_Z (len i : Z) :
  0 <= i <= len -> relative_index len (of_Z i) = i.
Proof.
  intros H. unfold relative_index, of_Z. rewrite Qtrunc_Z.
  destruct (Z.ltb_spec i 0); lia.
Qed.

Lemma subarray_slice (ch : list number) (i j : Z) :
  0 <= i -> i <= j -> j <= Z.of_nat (List.length ch) ->
  subarray ch (of_Z i) (of_Z j) = slice i j ch.
Proof.
  intros Hi Hij Hj. unfold subarray.
  rewrite !relative_index_of_Z by lia. rewrite Z.max_r by lia. reflexivity.
Qed.

Lemma slice_length {A : Type} (l : list A) (i j : Z) :
  0 <= i -> i <= j -> j <= Z.of_nat (List.length l) ->
  List.length (slice i j l) = Z.to_nat (j - i).
Proof.
  intros Hi Hij Hj. unfold slice. rewrite length_firstn, length_skipn. lia.
Qed.

Lemma list_update_app {A : Type} (l1 l2 : list A) (x y : A) (k : nat) :
  List.length l1 = k -> list_update (l1 ++ x :: l2) k y = l1 ++ y :: l2.
Proof.
  intros <-. induction l1 as [ | a l1 IH]; simpl; [reflexivity | rewrite IH; reflexivity].
Qed.

Lemma firstn_S_nth_error {A : Type} (l : list A) (k : nat) (x : A) :
  nth_error l k = Some x -> firstn (S k) l = firstn k l ++ [x].
Proof.
  revert k. induction l as [ | a l IH]; intros [ | k] H; simpl in *; try discriminate.
  - injection H as ->. reflexivity.
  - rewrite (IH k H). reflexivity.
Qed.

(** The copy loop fills every channel of the new buffer with the slice
    [i, j) of the channel it comes from. *)
Lemma copy_channels (i j : Z) :
  0 <= i -> i < j -> j <= AudioBuffer.length b ->
  forall (m k : nat),
    (k + m = List.length (AudioBuffer.channelData b))%nat ->
    for_loop m (Z.of_nat k) (copy_channel b (of_Z i) (of_Z j))
      (AudioBuffer.mk (AudioBuffer.numberOfChannels b) (j - i) (AudioBuffer.sampleRate b)
         (map (slice i j) (firstn k (AudioBuffer.channelData b))
          ++ repeat (repeat (of_Z 0) (Z.to_nat (j - i))) m))
    = Ok (AudioBuffer.mk (AudioBuffer.numberOfChannels b) (j - i) (AudioBuffer.sampleRate b)
            (map (slice i j) (AudioBuffer.channelData b))).
Proof.
  intros Hi Hij Hj. destruct b_valid as (_ & _ & _ & Hn & Hch).
  set (cd := AudioBuffer.channelData b) in *.
  set (zeros := repeat (of_Z 0) (Z.to_nat (j - i))).
  induction m as [ | m IH]; intros k Hk.
  - cbn [for_loop repeat]. rewrite app_nil_r, firstn_all2 by lia. reflexivity.
  - destruct (nth_error cd k) as [ch | ] eqn:Hc.
    2: { apply nth_error_None in Hc. lia. }
    assert (Hl : Z.of_nat (List.length ch) = AudioBuffer.length b).
    { rewrite Forall_forall in Hch. apply Hch. eapply nth_error_In, Hc. }
    cbn [for_loop]. unfold copy_channel at 1.
    unfold AudioBuffer.getChannelData at 1. fold cd.
    replace ((0 <=? Z.of_nat k) && (Z.of_nat k <? AudioBuffer.numberOfChannels b)) with true
      by (symmetry; apply andb_true_intro; split; [apply Z.leb_le | apply Z.ltb_lt]; lia).
    rewrite Nat2Z.id, Hc.
    unfold AudioBuffer.getChannelData at 1.
    cbn [AudioBuffer.numberOfChannels AudioBuffer.channelData].
    replace ((0 <=? Z.of_nat k) && (Z.of_nat k <? AudioBuffer.numberOfChannels b)) with true
      by (symmetry; apply andb_true_intro; split; [apply Z.leb_le | apply Z.ltb_lt]; lia).
    rewrite Nat2Z.id.
    assert (Hlen : List.length (map (slice i j) (firstn k cd)) = k)
      by (rewrite length_map, length_firstn; lia).
    rewrite nth_error_app2 by lia. rewrite Hlen, Nat.sub_diag. cbn [repeat nth_error].
    rewrite subarray_slice by lia.
    unfold TypedArray_set.
    assert (Hsl : List.length (slice i j ch) = Z.to_nat (j - i))
      by (apply slice_length; lia).
    assert (Hz : List.length zeros = Z.to_nat (j - i)) by apply repeat_length.
    fold zeros. rewrite Hsl, Hz, Nat.leb_refl.
    replace (skipn (Z.to_nat (j - i)) zeros) with (@nil number)
      by (rewrite <- Hz; symmetry; apply skipn_all).
    rewrite app_nil_r.
    unfold set_channel.
    cbn [AudioBuffer.numberOfChannels AudioBuffer.length AudioBuffer.sampleRate
         AudioBuffer.channelData].
    rewrite Nat2Z.id, (list_update_app _ _ _ _ _ Hlen).
    replace (Z.of_nat k + 1) with (Z.of_nat (S k)) by lia.
    rewrite <- (IH (S k)) by lia.
    rewrite (firstn_S_nth_error _ _ _ Hc), map_app, <- app_assoc. reflexivity.
Qed.

Lemma effectiveStart_Fin (s : number) (x : Q) :
  effectiveStart s = Fin x -> (0 <= x)%Q.
Proof.
  unfold effectiveStart, Math_max, of_Z.
  destruct s as [ | [ | ] | q]; cbn [num_ltb negb]; try discriminate.
  - intros H. injection H as <-. apply Qle_refl.
  - destruct (Qltb (inject_Z 0) q) eqn:E; intros H; injection H as <-.
    + apply Qltb_true in E. apply Qlt_le_weak, E.
    + apply Qle_refl.
Qed.

Lemma effectiveEnd_Fin (e : number) (y d : Q) :
  AudioBuffer.duration b = Fin d -> effectiveEnd b e = Fin y -> (y <= d)%Q.
Proof.
  intros Hd. unfold effectiveEnd, Math_min. rewrite Hd.
  destruct e as [ | [ | ] | q]; cbn [num_ltb negb]; try discriminate.
  - intros H. injection H as <-. apply Qle_refl.
  - destruct (Qltb d q) eqn:E; intros H; injection H as <-.
    + apply Qle_refl.
    + apply Qltb_false in E. exact E.
Qed.

(** A range whose two ends are finite and in order: the indices are in
    range and ordered, and the result is the slice, unless it is empty. *)
Lemma extract_finite (s e : number) (x y : Q) :
  effectiveStart s = Fin x -> effectiveEnd b e = Fin y -> (x < y)%Q ->
  startSample b s = of_Z (index_of b x) /\
  endSample b e = of_Z (index_of b y) /\
  0 <= index_of b x /\ index_of b x <= index_of b y /\
  index_of b y <= AudioBuffer.length b /\
  extract b s e
  = if index_of b y =? index_of b x then TrimThrew NotSupportedError
    else Trimmed (AudioBuffer.mk (AudioBuffer.numberOfChannels b)
                    (index_of b y - index_of b x) (AudioBuffer.sampleRate b)
                    (map (slice (index_of b x) (index_of b y))
                       (AudioBuffer.channelData b))).
Proof.
  intros Hs He Hxy.
  destruct duration_Fin as (d & Ed & _).
  pose proof (effectiveStart_Fin s x Hs) as Hx0.
  pose proof (effectiveEnd_Fin e y d Ed He) as Hyd.
  destruct (index_of_range x d Ed Hx0 ltac:(lra)) as (Ei & Hi0 & HiL).
  destruct (index_of_range y d Ed ltac:(lra) Hyd) as (Ej & Hj0 & HjL).
  pose proof (index_of_mono x y Hx0 (Qlt_le_weak _ _ Hxy)) as Hij.
  pose proof b_length as HL. pose proof b_rate as Hr.
  destruct b_valid as (_ & Hc & _ & Hn & _).
  set (i := index_of b x) in *. set (j := index_of b y) in *.
  assert (Est : startSample b s = of_Z i) by (unfold startSample; rewrite Hs; exact Ei).
  assert (Een : endSample b e = of_Z j) by (unfold endSample; rewrite He; exact Ej).
  repeat (split; [assumption | ]).
  unfold extract. rewrite Hs, He. cbn [num_leb].
  replace (Qle_bool y x) with false
    by (symmetry; apply Qltb_true in Hxy; unfold Qltb in Hxy;
        apply negb_true_iff in Hxy; exact Hxy).
  rewrite Est, Een. unfold AudioBuffer.createBuffer.
  rewrite ToUint32_sub by lia.
  replace (AudioBuffer.numberOfChannels b <=? 0) with false by (symmetry; apply Z.leb_gt; lia).
  replace (AudioBuffer.sampleRate b <=? 0) with false by (symmetry; apply Z.leb_gt; lia).
  cbn [orb]. rewrite orb_false_r.
  destruct (Z.eqb_spec j i) as [E | Hne].
  - rewrite E, Z.sub_diag. reflexivity.
  - replace (j - i =? 0) with false by (symmetry; apply Z.eqb_neq; lia).
    pose proof (copy_channels i j Hi0 ltac:(lia) HjL
                  (Z.to_nat (AudioBuffer.numberOfChannels b)) 0 ltac:(lia)) as Hcp.
    cbn [firstn map app Z.of_nat] in Hcp. rewrite Hcp. reflexivity.
Qed.




End Extract.

(** * Properties of the trimmer *)





Lemma round64_not_NaN (x : Q) : round64 x <> NaN.
Proof.
  unfold round64.
  destruct (Qle_bool _ _); [discriminate | ]. destruct (Qle_bool _ _); discriminate.
Qed.

Lemma duration_not_NaN (b : AudioBuffer.t) :
  AudioBuffer.valid b -> AudioBuffer.duration b <> NaN.
Proof.
  intros (Hr & _). unfold AudioBuffer.duration, num_div, of_Z.
  destruct (Qeq_bool (inject_Z (AudioBuffer.sampleRate b)) 0) eqn:E.
  - apply Qeq_bool_iff in E. exfalso.
    pose proof (inject_Z_lt 0 _ Hr) as H. change (inject_Z 0) with 0%Q in H. lra.
  - apply round64_not_NaN.
Qed.

(** An end time of at most five seconds is not after a start of five. *)
Lemma end_at_most_five (b : AudioBuffer.t) (q : Q) :
  AudioBuffer.valid b -> (q <= inject_Z 5)%Q ->
  extract b (of_Z 5) (Fin q) = InvalidRange.
Proof.
  intros Hv Hq. unfold extract.
  assert (Es : effectiveStart (of_Z 5) = of_Z 5) by (vm_compute; reflexivity).
  rewrite Es. unfold effectiveEnd, Math_min, of_Z.
  pose proof (duration_not_NaN b Hv) as Hd.
  destruct (AudioBuffer.duration b) as [ | [ | ] | d]; [contradiction | | | ];
    cbn [num_ltb negb num_leb].
  - reflexivity.
  - replace (Qle_bool q (inject_Z 5)) with true
      by (symmetry; apply Qle_bool_iff; exact Hq). reflexivity.
  - destruct (Qltb d q) eqn:E; cbn [num_leb].
    + apply Qltb_true in E.
      replace (Qle_bool d (inject_Z 5)) with true
        by (symmetry; apply Qle_bool_iff; lra). reflexivity.
    + replace (Qle_bool q (inject_Z 5)) with true
        by (symmetry; apply Qle_bool_iff; exact Hq). reflexivity.
Qed.

(** C4: the extraction stops with the range error exactly when the clamped
    end is not after the clamped start; the handler then only sets the error
    message: no buffer is created and the output is left as it was.  Ranges
    5.0 to 5.0 and 5.0 to 3.0 are refused on every valid buffer. *)
Theorem invalid_range_rejected :
  (forall (b : AudioBuffer.t) (s e : number),
      extract b s e = InvalidRange <->
      num_leb (effectiveEnd b e) (effectiveStart s) = true) /\
  (forall (st : TrimmerState) (b : AudioBuffer.t),
      audioBuffer st = Some b ->
      extract b (startTime st) (endTime st) = InvalidRange ->
      exists st',
        handleTrim st = Some (st', None) /\
        status st' = "Error: End time must be after start time."%string /\
        output st' = output st /\ audioBuffer st' = audioBuffer st) /\
  (forall b : AudioBuffer.t,
      AudioBuffer.valid b ->
      extract b (of_Z 5) (of_Z 5) = InvalidRange /\
      extract b (of_Z 5) (of_Z 3) = InvalidRange).
Proof.
  split; [ | split].
  - intros b s e. unfold extract.
    destruct (num_leb (effectiveEnd b e) (effectiveStart s)).
    + split; reflexivity.
    + split; [ | discriminate].
      destruct (AudioBuffer.createBuffer _ _ _); [ | discriminate].
      destruct (for_loop _ _ _ _); discriminate.
  - intros st b Hb H. eexists. unfold handleTrim. rewrite Hb, H.
    split; [reflexivity | ]. cbn. split; [reflexivity | ]. split; [reflexivity | exact Hb].
  - intros b Hv. split; apply end_at_most_five; try assumption.
    + apply Qle_refl.
    + discriminate.
Qed.

Lemma invalid_range_rejected_witness :
  AudioBuffer.valid three_frames /\
  extract three_frames (of_Z 5) (of_Z 5) = InvalidRange /\
  extract three_frames (of_Z 5) (of_Z 3) = InvalidRange.
Proof.
  assert (Hv : AudioBuffer.valid three_frames) by prove_valid.
  split; [exact Hv | ].
  exact (proj2 (proj2 invalid_range_rejected) three_frames Hv).
Defined.

Lemma index_of_zero (b : AudioBuffer.t) : index_of b (inject_Z 0) = 0.
Proof.
  unfold index_of.
  assert (E : (roundQ (inject_Z 0 * inject_Z (AudioBuffer.sampleRate b)) == inject_Z 0)%Q).
  { apply roundQ_zero. change (inject_Z 0) with 0%Q. ring. }
  rewrite (Qfloor_comp _ _ E). apply Qfloor_Z.
Qed.

Lemma effectiveStart_zero : effectiveStart (of_Z 0) = Fin (inject_Z 0).
Proof. reflexivity. Qed.

Lemma of_Z_inj (i j : Z) : of_Z i = of_Z j -> i = j.
Proof. unfold of_Z, inject_Z. intros H. injection H as H. exact H. Qed.

Lemma slice_all {A : Type} (l : list A) (n : Z) :
  Z.of_nat (List.length l) = n -> slice 0 n l = l.
Proof.
  intros H. unfold slice. cbn [Z.to_nat skipn]. apply firstn_all2. lia.
Qed.

Section Identity.

Variable b : AudioBuffer.t.
Hypothesis b_valid : AudioBuffer.valid b.
Hypothesis length_range : AudioBuffer.length b < 2 ^ 32.
Hypothesis rate_range : AudioBuffer.sampleRate b < 2 ^ 32.

(** Extracting from time 0 to the duration: the end index is the frame
    count or one less. *)
Lemma extract_whole :
  0 < AudioBuffer.length b ->
  exists j,
    startSample b (of_Z 0) = of_Z 0 /\
    endSample b (AudioBuffer.duration b) = of_Z j /\
    AudioBuffer.length b - 1 <= j <= AudioBuffer.length b /\
    extract b (of_Z 0) (AudioBuffer.duration b)
    = if j =? 0 then TrimThrew NotSupportedError
      else Trimmed (AudioBuffer.mk (AudioBuffer.numberOfChannels b) j
                      (AudioBuffer.sampleRate b)
                      (map (slice 0 j) (AudioBuffer.channelData b))).
Proof.
  intros Hpos.
  destruct (duration_Fin b b_valid length_range rate_range) as (d & Ed & Hd).
  pose proof (b_length b b_valid length_range) as HL.
  pose proof (b_rate b b_valid rate_range) as Hr.
  destruct (duration_times_rate _ _ HL Hr) as (Hd0 & Hlo & _). cbv zeta in Hd0, Hlo.
  set (R := inject_Z (AudioBuffer.sampleRate b)) in *.
  set (d' := roundQ (inject_Z (AudioBuffer.length b) / R)) in *.
  assert (Hdr : (roundQ (d * R) == roundQ (d' * R))%Q)
    by (apply roundQ_comp; rewrite Hd; reflexivity).
  assert (Hdpos : (0 < d)%Q).
  { apply Qnot_le_lt. intros Hle.
    assert (E0 : (d == 0)%Q) by (apply Qle_antisym; [exact Hle | rewrite Hd; exact Hd0]).
    assert (Ez : (roundQ (d * R) == 0)%Q) by (apply roundQ_zero; rewrite E0; ring).
    rewrite <- Hdr, Ez in Hlo.
    assert (H1 : (inject_Z 1 <= inject_Z (AudioBuffer.length b))%Q)
      by (apply inject_Z_le; lia).
    change (inject_Z 1) with 1%Q in H1. lra. }
  assert (Ee : effectiveEnd b (AudioBuffer.duration b) = Fin d).
  { unfold effectiveEnd, Math_min. rewrite Ed. cbn [num_ltb].
    destruct (Qltb d d); reflexivity. }
  destruct (extract_finite b b_valid length_range rate_range (of_Z 0)
              (AudioBuffer.duration b) (inject_Z 0) d effectiveStart_zero Ee Hdpos)
    as (Est & Een & _ & _ & Hj & Hex).
  rewrite index_of_zero in *. rewrite Z.sub_0_r in Hex.
  exists (index_of b d). repeat split; try assumption.
  unfold index_of. fold R.
  assert (H : (inject_Z (AudioBuffer.length b - 1) <= roundQ (d * R))%Q).
  { rewrite Hdr. unfold Z.sub. rewrite inject_Z_plus.
    change (inject_Z (- (1))) with (-1 # 1)%Q. lra. }
  apply Qfloor_resp_le in H. rewrite Qfloor_Z in H. exact H.
Qed.

End Identity.

(** C8 as stated fails: on a one-frame buffer at 3007 Hz the product of the
    duration and the rate rounds below 1, the range is empty and
    [createBuffer] throws; on fifteen frames at 44100 Hz the result has
    fourteen frames. *)
Lemma extraction_identity_counterexample :
  AudioBuffer.valid one_frame /\
  num_ltb (of_Z 0) (AudioBuffer.duration one_frame) = true /\
  extract one_frame (of_Z 0) (AudioBuffer.duration one_frame)
  = TrimThrew NotSupportedError /\
  AudioBuffer.valid fifteen_frames /\
  exists nb,
    extract fifteen_frames (of_Z 0) (AudioBuffer.duration fifteen_frames) = Trimmed nb /\
    AudioBuffer.length nb = 14 /\ AudioBuffer.length fifteen_frames = 15.
Proof.
  split; [prove_valid | ]. split; [vm_compute; reflexivity | ].
  split; [vm_compute; reflexivity | ]. split; [prove_valid | ].
  eexists. split; [vm_compute; reflexivity | ]. split; reflexivity.
Qed.

(** C8, amended: on a valid buffer with at least one frame, extracting from
    0 to the duration yields the leading [j] frames of every channel, with
    the same rate and channel count, where [j] is the frame count or one
    less; it is the buffer itself when [j] is the frame count, it succeeds
    whenever there are two frames or more, and it throws when [j] is 0. *)
Theorem extraction_identity (b : AudioBuffer.t) :
  AudioBuffer.valid b ->
  AudioBuffer.length b < 2 ^ 32 -> AudioBuffer.sampleRate b < 2 ^ 32 ->
  0 < AudioBuffer.length b ->
  exists j,
    endSample b (AudioBuffer.duration b) = of_Z j /\
    AudioBuffer.length b - 1 <= j <= AudioBuffer.length b /\
    extract b (of_Z 0) (AudioBuffer.duration b)
    = (if j =? 0 then TrimThrew NotSupportedError
       else Trimmed (AudioBuffer.mk (AudioBuffer.numberOfChannels b) j
                       (AudioBuffer.sampleRate b)
                       (map (slice 0 j) (AudioBuffer.channelData b)))) /\
    (j = AudioBuffer.length b ->
     extract b (of_Z 0) (AudioBuffer.duration b) = Trimmed b) /\
    (2 <= AudioBuffer.length b ->
     exists nb, extract b (of_Z 0) (AudioBuffer.duration b) = Trimmed nb).
Proof.
  intros Hv HL Hr Hpos.
  destruct (extract_whole b Hv HL Hr Hpos) as (j & _ & Een & Hj & Hex).
  exists j. split; [exact Een | ]. split; [exact Hj | ]. split; [exact Hex | ]. split.
  - intros E. rewrite Hex.
    replace (j =? 0) with false by (symmetry; apply Z.eqb_neq; lia).
    f_equal. destruct Hv as (_ & _ & _ & _ & Hch).
    destruct b as [nc L r cd]. cbn in *. subst j. f_equal.
    rewrite <- (map_id cd) at 2. apply map_ext_in. intros c Hc.
    apply slice_all. rewrite Forall_forall in Hch. apply Hch, Hc.
  - intros H2. rewrite Hex.
    replace (j =? 0) with false by (symmetry; apply Z.eqb_neq; lia).
    eexists. reflexivity.
Qed.

Lemma extraction_identity_witness :
  AudioBuffer.valid three_frames /\
  AudioBuffer.length three_frames < 2 ^ 32 /\
  AudioBuffer.sampleRate three_frames < 2 ^ 32 /\
  0 < AudioBuffer.length three_frames /\
  exists j, endSample three_frames (AudioBuffer.duration three_frames) = of_Z j /\
            2 <= j <= 3.
Proof.
  assert (Hv : AudioBuffer.valid three_frames) by prove_valid.
  assert (HL : AudioBuffer.length three_frames < 2 ^ 32) by reflexivity.
  assert (Hr : AudioBuffer.sampleRate three_frames < 2 ^ 32) by reflexivity.
  assert (Hp : 0 < AudioBuffer.length three_frames) by reflexivity.
  repeat (split; [assumption | ]).
  destruct (extraction_identity three_frames Hv HL Hr Hp) as (j & E & H & _).
  exists j. split; [exact E | exact H].
Defined.




